(** * pdf-to-markdown: the text-to-Markdown reconstruction pipeline of app.js

    A shallow embedding of [extractPageText], the page loop of
    [extractTextFromPDF] and [formatAsMarkdown], of the statistics of
    [updateFileStats] and of the handlers [handleFile], [showResults],
    [resetApp] and [handleDownloadClick], together with the small part of
    the JavaScript string and RegExp semantics these functions use.

    - A JavaScript string is a list of UTF-16 code units ([N]); [length] is
      the [.length] of the source.
    - A number (the y coordinate [item.transform[5]]) is an IEEE 754
      binary64 value, a primitive [float]: [y - lastY], [Math.abs] and [>]
      are the operations of the machine, rounding included.  The value
      [undefined] is [None]; arithmetic on it gives NaN, which compares
      false with everything.
    - A regular expression is a sequence of atoms run by a backtracking
      matcher that follows the ECMAScript RepeatMatcher for greedy
      quantifiers over character classes. *)

From Stdlib Require Import Floats.PrimFloat Floats.SpecFloat Floats.FloatOps
  Floats.FloatAxioms.
From Stdlib Require Import String Ascii.
From Stdlib Require Import List NArith ZArith Bool Arith Lia.
Import ListNotations.

Close Scope string_scope.
Open Scope list_scope.
Open Scope nat_scope.

(* ------------------------------------------------------------------ *)
(** ** JavaScript strings *)

Module JS.

(** A code unit, and a string of them. *)
Abbreviation char := N (only parsing).
Abbreviation jsstring := (list N) (only parsing).

(** A literal made of ASCII characters only, as a sequence of code units. *)
Fixpoint lit (s : string) : jsstring :=
  match s with
  | EmptyString => []
  | String a s' => N_of_ascii a :: lit s'
  end.

Definition LF : char := 10%N.

(** LineTerminator of ECMAScript: LF, CR, LS, PS. *)
Definition is_line_terminator (c : char) : bool :=
  ((c =? 10) || (c =? 13) || (c =? 0x2028) || (c =? 0x2029))%N.

(** WhiteSpace of ECMAScript: TAB, VT, FF, ZWNBSP and the category Zs. *)
Definition is_white_space (c : char) : bool :=
  ((c =? 9) || (c =? 11) || (c =? 12) || (c =? 32) || (c =? 0xA0)
   || (c =? 0x1680) || ((0x2000 <=? c) && (c <=? 0x200A))
   || (c =? 0x202F) || (c =? 0x205F) || (c =? 0x3000) || (c =? 0xFEFF))%N.

(** What [String.prototype.trim] strips and what [\s] matches. *)
Definition is_space (c : char) : bool :=
  is_white_space c || is_line_terminator c.

Fixpoint trimStart (s : jsstring) : jsstring :=
  match s with
  | [] => []
  | c :: s' => if is_space c then trimStart s' else s
  end.

Definition trimEnd (s : jsstring) : jsstring := rev (trimStart (rev s)).

Definition trim (s : jsstring) : jsstring := trimEnd (trimStart s).

(** Truthiness of a string: the empty string is the only falsy one. *)
Definition truthy (s : jsstring) : bool :=
  match s with [] => false | _ :: _ => true end.

Fixpoint starts_with (sep s : jsstring) : bool :=
  match sep, s with
  | [], _ => true
  | _ :: _, [] => false
  | a :: sep', b :: s' => (a =? b)%N && starts_with sep' s'
  end.

Definition cons_head (c : char) (l : list jsstring) : list jsstring :=
  match l with
  | [] => [[c]]
  | h :: t => (c :: h) :: t
  end.

(** [s.split(sep)] for a non-empty string separator: the occurrences are
    found from left to right and do not overlap.  [skip] counts the code
    units of the separator found last that are still to be passed. *)
Fixpoint split_go (sep : jsstring) (skip : nat) (s : jsstring) : list jsstring :=
  match s with
  | [] => [[]]
  | c :: s' =>
      match skip with
      | S k => split_go sep k s'
      | O =>
          if starts_with sep s
          then [] :: split_go sep (length sep - 1) s'
          else cons_head c (split_go sep 0 s')
      end
  end.

Definition split (sep s : jsstring) : list jsstring := split_go sep 0 s.

(** [arr.join(sep)] *)
Fixpoint join (sep : jsstring) (arr : list jsstring) : jsstring :=
  match arr with
  | [] => []
  | [x] => x
  | x :: arr' => x ++ sep ++ join sep arr'
  end.

(** Exceptions: the only one the modelled code could raise is the
    TypeError of a property read on [undefined]. *)
Inductive exception := TypeError.

Inductive result (A : Type) : Type :=
| Ok (a : A)
| Throw (e : exception).
Arguments Ok {A} a.
Arguments Throw {A} e.

Definition bind {A B} (r : result A) (k : A -> result B) : result B :=
  match r with
  | Ok a => k a
  | Throw e => Throw e
  end.

(** [x.length] where [x] is the element read from an array: reading
    [.length] of [undefined] throws. *)
Definition length_of (x : option jsstring) : result nat :=
  match x with
  | Some s => Ok (length s)
  | None => Throw TypeError
  end.

(** [arr.map(f)], the callback receiving the element, its index and the
    array. *)
Fixpoint map_from {A B} (f : A -> nat -> result B) (idx : nat) (l : list A)
  : result (list B) :=
  match l with
  | [] => Ok []
  | x :: l' =>
      bind (f x idx) (fun y =>
      bind (map_from f (S idx) l') (fun ys => Ok (y :: ys)))
  end.

Definition array_map {A B} (f : A -> nat -> list A -> result B) (arr : list A)
  : result (list B) :=
  map_from (fun x idx => f x idx arr) 0 arr.

End JS.

Import JS.
Notation "x <- r ;; k" := (bind r (fun x => k))
  (at level 61, r at next level, right associativity).

(* ------------------------------------------------------------------ *)
(** ** Regular expressions *)

Module RegExp.

(** The atoms the program's patterns are built from: the assertions [^]
    and [$], one code unit of a class, and a class under the greedy
    quantifier [{n,}] ([+] is [{1,}]). *)
Inductive atom :=
| Bol
| Eol
| Class (p : char -> bool)
| AtLeast (n : nat) (p : char -> bool).

(** A pattern is a sequence of atoms, each either plain or inside a
    capturing group [( )]. *)
Inductive item :=
| Plain (a : atom)
| Group (a : atom).

Definition regex := list item.

Definition atom_of (i : item) : atom :=
  match i with Plain a => a | Group a => a end.

(** [^]: at the start of the input, or with the [m] flag after a line
    terminator.  [prev] is the code unit before the current position. *)
Definition at_bol (multiline : bool) (prev : option char) : bool :=
  match prev with
  | None => true
  | Some c => multiline && is_line_terminator c
  end.

(** [$]: at the end of the input, or with the [m] flag before a line
    terminator. *)
Definition at_eol (multiline : bool) (s : jsstring) : bool :=
  match s with
  | [] => true
  | c :: _ => multiline && is_line_terminator c
  end.

Definition continuation := option char -> jsstring -> option (list jsstring).

(** Greedy repetition of a class followed by the continuation [k]: one
    more code unit is tried first, and the continuation is run where that
    fails, provided the [n] mandatory iterations are done.  The result is
    the text taken by the repetition and the result of the continuation. *)
Fixpoint greedy (p : char -> bool) (k : continuation) (n : nat)
    (prev : option char) (s : jsstring) : option (jsstring * list jsstring) :=
  let stop :=
    match n with
    | O => option_map (pair []) (k prev s)
    | S _ => None
    end in
  match s with
  | [] => stop
  | c :: s' =>
      if p c then
        match greedy p k (pred n) (Some c) s' with
        | Some (w, r) => Some (c :: w, r)
        | None => stop
        end
      else stop
  end.

(** The backtracking matcher at one position: the text matched by each
    atom of the pattern, in order, or [None]. *)
Fixpoint exec (multiline : bool) (re : list atom) (prev : option char)
    (s : jsstring) : option (list jsstring) :=
  match re with
  | [] => Some []
  | Bol :: re' =>
      if at_bol multiline prev
      then option_map (cons []) (exec multiline re' prev s)
      else None
  | Eol :: re' =>
      if at_eol multiline s
      then option_map (cons []) (exec multiline re' prev s)
      else None
  | Class p :: re' =>
      match s with
      | [] => None
      | c :: s' =>
          if p c
          then option_map (cons [c]) (exec multiline re' (Some c) s')
          else None
      end
  | AtLeast n p :: re' =>
      option_map (fun wr => fst wr :: snd wr)
                 (greedy p (exec multiline re') n prev s)
  end.

(** The texts of the capturing groups, [$1], [$2], ... in order. *)
Fixpoint captures (re : regex) (pieces : list jsstring) : list jsstring :=
  match re, pieces with
  | Group _ :: re', x :: pieces' => x :: captures re' pieces'
  | Plain _ :: re', _ :: pieces' => captures re' pieces'
  | _, _ => []
  end.

(** A match at the current position: the matched text and the captures. *)
Definition match_at (multiline : bool) (re : regex) (prev : option char)
    (s : jsstring) : option (jsstring * list jsstring) :=
  option_map (fun pieces => (concat pieces, captures re pieces))
             (exec multiline (map atom_of re) prev s).

(** The first position, from the current one on, where the pattern
    matches. *)
Fixpoint search (multiline : bool) (re : regex) (prev : option char)
    (s : jsstring) : option (jsstring * list jsstring) :=
  match match_at multiline re prev s with
  | Some r => Some r
  | None =>
      match s with
      | [] => None
      | c :: s' => search multiline re (Some c) s'
      end
  end.

(** [s.match(re)] for a pattern without the [g] flag, as a truth value. *)
Definition matches (multiline : bool) (re : regex) (s : jsstring) : bool :=
  match search multiline re None s with Some _ => true | None => false end.

(** A replacement template: literal text and group references [$n]. *)
Inductive tpl :=
| Lit (s : jsstring)
| Ref (n : nat).

Definition expand (t : list tpl) (caps : list jsstring) : jsstring :=
  flat_map (fun x => match x with
                     | Lit s => s
                     | Ref n => nth (n - 1) caps []
                     end) t.

Definition matcher := option char -> jsstring -> option (jsstring * list jsstring).

(** The scan of [s.replace(re, t)] for a pattern with the [g] flag: every
    match found from left to right is replaced, the text between matches
    is kept, and the search resumes where the match ended (one code unit
    further after an empty match).  [skip] counts the code units of the
    current match that are still to be passed. *)
Fixpoint scan (M : matcher) (repl : list jsstring -> jsstring) (skip : nat)
    (prev : option char) (s : jsstring) : jsstring :=
  match s with
  | [] =>
      match skip with
      | S _ => []
      | O => match M prev [] with
             | Some (_, caps) => repl caps
             | None => []
             end
      end
  | c :: s' =>
      match skip with
      | S k => scan M repl k (Some c) s'
      | O =>
          match M prev s with
          | Some (matched, caps) =>
              repl caps ++
              match length matched with
              | O => c :: scan M repl 0 (Some c) s'
              | S k => scan M repl k (Some c) s'
              end
          | None => c :: scan M repl 0 (Some c) s'
          end
      end
  end.

Definition replace (multiline : bool) (re : regex) (t : list tpl)
    (s : jsstring) : jsstring :=
  scan (match_at multiline re) (expand t) 0 None s.

End RegExp.

Import RegExp.

(* ------------------------------------------------------------------ *)
(** ** The program *)

Definition is_digit (c : char) : bool := ((48 <=? c) && (c <=? 57))%N.
Definition is_period (c : char) : bool := (c =? 46)%N.
Definition is_LF (c : char) : bool := (c =? 10)%N.

(** [.] without the [s] flag: anything but a line terminator. *)
Definition any_char (c : char) : bool := negb (is_line_terminator c).

(** The class [[•·▪▸■]]: U+2022, U+00B7, U+25AA, U+25B8, U+25A0. *)
Definition is_bullet (c : char) : bool :=
  ((c =? 0x2022) || (c =? 0xB7) || (c =? 0x25AA) || (c =? 0x25B8)
   || (c =? 0x25A0))%N.

(** The class [[•·▪▸■\-\*]]. *)
Definition is_list_glyph (c : char) : bool :=
  (is_bullet c || (c =? 45) || (c =? 42))%N.

(** [/^\d+\./] *)
Definition re_numbered_prefix : regex :=
  [Plain Bol; Plain (AtLeast 1 is_digit); Plain (Class is_period)].

(** [/^[•·▪▸■\-\*]/] *)
Definition re_list_glyph : regex :=
  [Plain Bol; Plain (Class is_list_glyph)].

(** [/^([•·▪▸■])\s+(.+)$/gm] *)
Definition re_bullet_line : regex :=
  [Plain Bol; Group (Class is_bullet); Plain (AtLeast 1 is_space);
   Group (AtLeast 1 any_char); Plain Eol].

(** [/^(\d+)\.\s+(.+)$/gm] *)
Definition re_numbered_line : regex :=
  [Plain Bol; Group (AtLeast 1 is_digit); Plain (Class is_period);
   Plain (AtLeast 1 is_space); Group (AtLeast 1 any_char); Plain Eol].

(** [/\n{3,}/g] *)
Definition re_blank_lines : regex := [Plain (AtLeast 3 is_LF)].

Definition paragraph_mark : jsstring := [LF; LF].

(** ['\n\n---\n\n'] *)
Definition page_separator : jsstring :=
  [LF; LF] ++ lit "---" ++ [LF; LF].

(** *** extractPageText *)

Record TextItem := { str : jsstring; transform : list float }.

Record TextContent := { items : list TextItem }.

(** The variables of [extractPageText]; [lastY] is [None] for [null]. *)
Record page_state := {
  lastY : option (option float);
  line : jsstring;
  pageText : jsstring
}.

(** [Math.abs(y - lastY) > 5] *)
Definition gap_exceeds (y ly : option float) : bool :=
  match y, ly with
  | Some a, Some b => PrimFloat.ltb 5 (PrimFloat.abs (PrimFloat.sub a b))
  | _, _ => false
  end.

(** [if (line.trim()) { pageText += line.trim() + '\n\n'; }] *)
Definition flush (line pageText : jsstring) : jsstring :=
  if truthy (trim line)
  then pageText ++ (trim line ++ paragraph_mark)
  else pageText.

(** The callback of [textContent.items.forEach]. *)
Definition item_step (st : page_state) (item : TextItem) : page_state :=
  let y := nth_error (transform item) 5 in
  let s := str item in
  let st1 :=
    match lastY st with
    | Some ly =>
        if gap_exceeds y ly
        then {| lastY := lastY st;
                line := [];
                pageText := flush (line st) (pageText st) |}
        else st
    | None => st
    end in
  {| lastY := Some y;
     line := line st1 ++ (s ++ lit " ");
     pageText := pageText st1 |}.

Definition extractPageText (textContent : TextContent) : jsstring :=
  let st := fold_left item_step (items textContent)
              {| lastY := None; line := []; pageText := [] |} in
  flush (line st) (pageText st).

(** *** formatAsMarkdown *)

(** The callback of [paragraphs.map]. *)
Definition format_paragraph (para : jsstring) (idx : nat)
    (arr : list jsstring) : result jsstring :=
  let trimmed := trim para in
  if (5 <? length trimmed)
     && (length trimmed <? 60)
     && negb (matches false re_numbered_prefix trimmed)
     && negb (matches false re_list_glyph trimmed)
     && (Z.of_nat idx <? Z.of_nat (length arr) - 1)%Z
  then
    n <- length_of (nth_error arr (idx + 1)) ;;
    if length trimmed <? n
    then Ok (lit "## " ++ trimmed)
    else Ok trimmed
  else Ok trimmed.

(** [text.split('\n\n').filter(p => p.trim())] *)
Definition paragraphs (text : jsstring) : list jsstring :=
  filter (fun p => truthy (trim p)) (split paragraph_mark text).

(** Step 4: [replace(/^([•·▪▸■])\s+(.+)$/gm, '- $2')] *)
Definition normalize_bullets (markdown : jsstring) : jsstring :=
  replace true re_bullet_line [Lit (lit "- "); Ref 2] markdown.

(** Step 5: [replace(/^(\d+)\.\s+(.+)$/gm, '$1. $2')] *)
Definition normalize_numbered (markdown : jsstring) : jsstring :=
  replace true re_numbered_line [Ref 1; Lit (lit ". "); Ref 2] markdown.

(** Step 6: [replace(/\n{3,}/g, '\n\n')] *)
Definition collapse_blank_lines (markdown : jsstring) : jsstring :=
  replace false re_blank_lines [Lit paragraph_mark] markdown.

Definition formatAsMarkdown (text : jsstring) : result jsstring :=
  formattedParagraphs <- array_map format_paragraph (paragraphs text) ;;
  let markdown := join paragraph_mark formattedParagraphs in
  let markdown := normalize_bullets markdown in
  let markdown := normalize_numbered markdown in
  let markdown := collapse_blank_lines markdown in
  Ok (trim markdown).

(** *** extractTextFromPDF *)

(** The document as the page provider presents it: the number of pages
    and the text content of page [n], for [n] from 1.  A failure of the
    provider is rethrown as it is by [extractTextFromPDF]; the model
    covers the runs in which the provider returns. *)
Record PDFDocument := {
  numPages : nat;
  getTextContent : nat -> TextContent
}.

(** The body of the loop over the pages. *)
Definition page_step (pdf : PDFDocument) (fullText : jsstring)
    (pageNum : nat) : jsstring :=
  let pageText := extractPageText (getTextContent pdf pageNum) in
  let fullText := fullText ++ pageText in
  if pageNum <? numPages pdf
  then fullText ++ page_separator
  else fullText.

Definition fullText_of (pdf : PDFDocument) : jsstring :=
  fold_left (page_step pdf) (seq 1 (numPages pdf)) [].

Definition extractTextFromPDF (pdf : PDFDocument) : result jsstring :=
  formatAsMarkdown (fullText_of pdf).

(** *** updateFileStats and formatNumber *)

(** [/\s+/] *)
Definition re_spaces : regex := [Plain (AtLeast 1 is_space)].

(** The scan of [s.split(re)]: the text is cut at every match found from
    left to right, attempted at each position in turn, and the captures
    of a match are spliced in after the piece it closes.  A match that
    ends where the current piece starts (an empty match with nothing
    read since the last cut) does not cut.  [fresh] tells that nothing
    was read since the last cut; [skip] counts the code units of the
    current match that are still to be passed. *)
Fixpoint split_matches (M : matcher) (skip : nat) (fresh : bool)
    (prev : option char) (s : jsstring) : list jsstring :=
  match s with
  | [] => [[]]
  | c :: s' =>
      match skip with
      | S k => split_matches M k true (Some c) s'
      | O =>
          match M prev s with
          | Some (matched, caps) =>
              match length matched with
              | O =>
                  if fresh
                  then cons_head c (split_matches M 0 false (Some c) s')
                  else [] :: caps ++
                       cons_head c (split_matches M 0 false (Some c) s')
              | S k => [] :: caps ++ split_matches M k true (Some c) s'
              end
          | None => cons_head c (split_matches M 0 false (Some c) s')
          end
      end
  end.

(** [s.split(re)]; the empty string gives no piece when the pattern
    matches it and one empty piece otherwise. *)
Definition split_regex (multiline : bool) (re : regex) (s : jsstring)
  : list jsstring :=
  match s with
  | [] =>
      match match_at multiline re None [] with
      | Some _ => []
      | None => [[]]
      end
  | _ :: _ => split_matches (match_at multiline re) 0 true None s
  end.

(** The largest integer whose [toString] is its exact decimal writing. *)
Definition max_safe_integer : N := 9007199254740991%N.

Definition digit (d : N) : char := (48 + d)%N.

Fixpoint decimal (fuel : nat) (n : N) : jsstring :=
  match fuel with
  | O => []
  | S f =>
      if (n <? 10)%N then [digit n]
      else decimal f (n / 10) ++ [digit (n mod 10)]
  end.

(** [num.toString()] for a non-negative integer up to
    [max_safe_integer]: its decimal digits.  The fuel, the number of
    binary digits, is never exhausted. *)
Definition toString (num : N) : jsstring :=
  decimal (S (N.to_nat (N.log2 num))) num.

(** [\w] *)
Definition is_word_char (c : char) : bool :=
  (is_digit c || ((65 <=? c) && (c <=? 90)) || ((97 <=? c) && (c <=? 122))
   || (c =? 95))%N.

Definition word_at (c : option char) : bool :=
  match c with
  | Some c => is_word_char c
  | None => false
  end.

(** [\B]: the code units on the two sides of the position are both word
    characters or both not (a missing one is not). *)
Definition not_word_boundary (prev : option char) (s : jsstring) : bool :=
  Bool.eqb (word_at prev) (word_at (hd_error s)).

(** [(\d{3})+(?!\d)] at the start of [s]: one more group of three digits
    is tried first, and where that fails the text must not go on with a
    digit.  The result is the text of the last group, which is what the
    capturing group holds. *)
Fixpoint digit_groups (s : jsstring) : option jsstring :=
  match s with
  | a :: b :: c :: s' =>
      if is_digit a && is_digit b && is_digit c then
        match digit_groups s' with
        | Some g => Some g
        | None =>
            match s' with
            | d :: _ => if is_digit d then None else Some [a; b; c]
            | [] => Some [a; b; c]
            end
        end
      else None
  | _ => None
  end.

(** [/\B(?=(\d{3})+(?!\d))/g]: an empty match, the lookahead leaving its
    capture. *)
Definition M_thousands : matcher :=
  fun prev s =>
    if not_word_boundary prev s then
      match digit_groups s with
      | Some g => Some ([], [g])
      | None => None
      end
    else None.

(** [num.toString().replace(/\B(?=(\d{3})+(?!\d))/g, ',')] *)
Definition formatNumber (num : N) : jsstring :=
  scan M_thousands (expand [Lit (lit ",")]) 0 None (toString num).

Definition charCount (markdown : jsstring) : nat := length markdown.

(** [markdown.trim().split(/\s+/).filter(w => w.length > 0).length] *)
Definition wordCount (markdown : jsstring) : nat :=
  length (filter (fun w => 0 <? length w)
                 (split_regex false re_spaces (trim markdown))).

(** [markdown.split('\n').length] *)
Definition lineCount (markdown : jsstring) : nat :=
  length (split [LF] markdown).

(** The text written to the statistics element. *)
Definition updateFileStats (markdown : jsstring) : jsstring :=
  lit "(" ++ formatNumber (N.of_nat (charCount markdown)) ++ lit " chars, "
  ++ formatNumber (N.of_nat (wordCount markdown)) ++ lit " words, "
  ++ formatNumber (N.of_nat (lineCount markdown)) ++ lit " lines)".

(** *** File names *)

(** [s.replace(pat, repl)] for a string pattern and a replacement
    without [$]: the first occurrence is replaced. *)
Fixpoint replace_string (pat repl s : jsstring) : jsstring :=
  if starts_with pat s then repl ++ skipn (length pat) s
  else
    match s with
    | [] => []
    | c :: s' => c :: replace_string pat repl s'
    end.

(** *** handleFile, showResults, resetApp and handleDownloadClick *)

(** The file handed to [handleFile]: [file.name], [file.type] and
    [file.size], a number of bytes. *)
Record File := {
  file_name : jsstring;
  file_type : jsstring;
  file_size : N
}.

(** [CONFIG.MAX_FILE_SIZE] and [CONFIG.ACCEPTED_FILE_TYPE] *)
Definition MAX_FILE_SIZE : N := 50 * 1024 * 1024.
Definition ACCEPTED_FILE_TYPE : jsstring := lit "application/pdf".

(** [a === b] on strings. *)
Definition strict_eq (a b : jsstring) : bool :=
  if list_eq_dec N.eq_dec a b then true else false.

(** What the handlers read and write: [appState.currentFileName], the
    text of the error element and whether it has the class [show], the
    [display] style of the upload section, whether the loading and the
    results sections have the class [show], the text of the file name
    element and the value of the editor.  The preview and the statistics,
    which depend on the Markdown renderer, the time stamp and the
    scrolling are left out. *)
Record App := {
  currentFileName : jsstring;
  error_textContent : jsstring;
  error_show : bool;
  uploadSection_display : jsstring;
  loading_show : bool;
  results_show : bool;
  fileName_textContent : jsstring;
  markdownEditor_value : jsstring
}.

Definition showError (message : jsstring) (st : App) : App :=
  {| currentFileName := currentFileName st;
     error_textContent := message;
     error_show := true;
     uploadSection_display := uploadSection_display st;
     loading_show := loading_show st;
     results_show := results_show st;
     fileName_textContent := fileName_textContent st;
     markdownEditor_value := markdownEditor_value st |}.

Definition hideError (st : App) : App :=
  {| currentFileName := currentFileName st;
     error_textContent := error_textContent st;
     error_show := false;
     uploadSection_display := uploadSection_display st;
     loading_show := loading_show st;
     results_show := results_show st;
     fileName_textContent := fileName_textContent st;
     markdownEditor_value := markdownEditor_value st |}.

Definition showLoading (st : App) : App :=
  {| currentFileName := currentFileName st;
     error_textContent := error_textContent st;
     error_show := error_show st;
     uploadSection_display := lit "none";
     loading_show := true;
     results_show := results_show st;
     fileName_textContent := fileName_textContent st;
     markdownEditor_value := markdownEditor_value st |}.

Definition hideLoading (st : App) : App :=
  {| currentFileName := currentFileName st;
     error_textContent := error_textContent st;
     error_show := error_show st;
     uploadSection_display := uploadSection_display st;
     loading_show := false;
     results_show := results_show st;
     fileName_textContent := fileName_textContent st;
     markdownEditor_value := markdownEditor_value st |}.

(** [appState.currentFileName = name] *)
Definition store_name (name : jsstring) (st : App) : App :=
  {| currentFileName := name;
     error_textContent := error_textContent st;
     error_show := error_show st;
     uploadSection_display := uploadSection_display st;
     loading_show := loading_show st;
     results_show := results_show st;
     fileName_textContent := fileName_textContent st;
     markdownEditor_value := markdownEditor_value st |}.

Definition showResults (markdown : jsstring) (st : App) : App :=
  let st := hideLoading st in
  {| currentFileName := currentFileName st;
     error_textContent := error_textContent st;
     error_show := error_show st;
     uploadSection_display := uploadSection_display st;
     loading_show := loading_show st;
     results_show := true;
     fileName_textContent := currentFileName st ++ lit ".md";
     markdownEditor_value := markdown |}.

Definition resetApp (st : App) : App :=
  hideError
    {| currentFileName := [];
       error_textContent := error_textContent st;
       error_show := error_show st;
       uploadSection_display := lit "block";
       loading_show := loading_show st;
       results_show := false;
       fileName_textContent := fileName_textContent st;
       markdownEditor_value := [] |}.

(** What the PDF library makes of the file: a document, or an exception
    of the given name thrown while the file is read, the document loaded
    or a page fetched. *)
Inductive Loaded :=
| Document (pdf : PDFDocument)
| Failure (err_name : jsstring).

(** [err.name] *)
Definition exception_name (e : exception) : jsstring :=
  match e with TypeError => lit "TypeError" end.

(** The outcome of [await extractTextFromPDF(file)]: the Markdown, or the
    name of the exception thrown. *)
Definition converted (loaded : Loaded) : jsstring + jsstring :=
  match loaded with
  | Document pdf =>
      match extractTextFromPDF pdf with
      | Ok markdown => inl markdown
      | Throw e => inr (exception_name e)
      end
  | Failure err_name => inr err_name
  end.

(** The message of the [catch] branch of [handleFile]. *)
Definition errorMessage (err_name : jsstring) : jsstring :=
  lit "Failed to process PDF. " ++
  (if strict_eq err_name (lit "InvalidPDFException")
   then lit "The file appears to be corrupted or not a valid PDF."
   else if strict_eq err_name (lit "PasswordException")
   then lit "This PDF is password-protected and cannot be processed."
   else lit "Please try another file or ensure the PDF is not corrupted.").

Section HandleFile.

(** [formatFileSize], which goes through the logarithm of the platform,
    is not modelled: the handlers are given for any such function. *)
Variable formatFileSize : N -> jsstring.

(** A run of [handleFile] in which no other handler runs while the file
    is converted. *)
Definition handleFile (file : File) (loaded : Loaded) (st : App) : App :=
  if negb (strict_eq (file_type file) ACCEPTED_FILE_TYPE)
  then showError (lit "Invalid file type. Please select a PDF file.") st
  else if (MAX_FILE_SIZE <? file_size file)%N
  then showError (lit "File size exceeds 50MB. Your file is "
                  ++ formatFileSize (file_size file) ++ lit ".") st
  else
    let st := hideError st in
    let st := store_name (replace_string (lit ".pdf") [] (file_name file)) st in
    let st := showLoading st in
    match converted loaded with
    | inl markdown => showResults markdown st
    | inr err_name => hideLoading (showError (errorMessage err_name) st)
    end.

End HandleFile.

(** What [handleDownloadClick] hands to the browser: the content of the
    blob and the [download] attribute of the link, with
    [appState.currentFileName || 'document'] for the name. *)
Record Download := {
  download_content : jsstring;
  download_name : jsstring
}.

Definition handleDownloadClick (st : App) : Download :=
  let markdown := markdownEditor_value st in
  let fileName :=
    if truthy (currentFileName st) then currentFileName st
    else lit "document" in
  {| download_content := markdown;
     download_name := fileName ++ lit ".md" |}.

(* ------------------------------------------------------------------ *)
(** ** Notions used in the statements and proofs *)

Fixpoint take_while (p : char -> bool) (s : jsstring) : jsstring :=
  match s with
  | [] => []
  | c :: s' => if p c then c :: take_while p s' else []
  end.

Fixpoint drop_while (p : char -> bool) (s : jsstring) : jsstring :=
  match s with
  | [] => []
  | c :: s' => if p c then drop_while p s' else s
  end.

(** The code unit before the position reached after reading [a]. *)
Definition prev_after (prev : option char) (a : jsstring) : option char :=
  fold_left (fun _ c => Some c) a prev.

(** What [\s*(.+)$] matches under the [m] flag, the run of spaces being
    greedy: the spaces and the captured text. *)
Fixpoint text_after_spaces (s : jsstring) : option (jsstring * jsstring) :=
  match s with
  | [] => None
  | c :: s' =>
      let here :=
        if any_char c then Some ([], take_while any_char s) else None in
      if is_space c then
        match text_after_spaces s' with
        | Some (w, cap) => Some (c :: w, cap)
        | None => here
        end
      else here
  end.

(** A list item at the start of a line: a marker recognised by [head],
    at least one space, and text up to the end of a line. *)
Definition item_match (head : jsstring -> option (jsstring * jsstring))
    (s : jsstring) : option (jsstring * jsstring * jsstring) :=
  match head s with
  | Some (h, c :: s1) =>
      if is_space c then
        match text_after_spaces s1 with
        | Some (w, cap) => Some (h, c :: w, cap)
        | None => None
        end
      else None
  | _ => None
  end.

Definition head_bullet (s : jsstring) : option (jsstring * jsstring) :=
  match s with
  | g :: s1 => if is_bullet g then Some ([g], s1) else None
  | [] => None
  end.

Definition head_numbered (s : jsstring) : option (jsstring * jsstring) :=
  match take_while is_digit s, drop_while is_digit s with
  | _ :: _, dot :: s1 =>
      if is_period dot
      then Some (take_while is_digit s ++ [dot], s1)
      else None
  | _, _ => None
  end.

(** No position of [s] starts a match. *)
Fixpoint no_match (M : matcher) (prev : option char) (s : jsstring) : Prop :=
  M prev s = None /\
  match s with
  | [] => True
  | c :: s' => no_match M (Some c) s'
  end.

(** The matchers and replacements of steps 4, 5 and 6. *)
Definition M_bullet : matcher := match_at true re_bullet_line.
Definition M_numbered : matcher := match_at true re_numbered_line.
Definition repl_bullet : list jsstring -> jsstring :=
  expand [Lit (lit "- "); Ref 2].
Definition repl_numbered : list jsstring -> jsstring :=
  expand [Ref 1; Lit (lit ". "); Ref 2].

Definition M_blank : matcher := match_at false re_blank_lines.
Definition repl_blank : list jsstring -> jsstring :=
  expand [Lit paragraph_mark].

(** A matcher whose matches are non-empty prefixes of the text it is
    given. *)
Definition sound (M : matcher) : Prop :=
  forall prev s matched caps,
    M prev s = Some (matched, caps) ->
    matched <> [] /\ exists rest, s = matched ++ rest.

(** A matcher that only matches at the start of a line, and there only
    text that starts with something else than a line terminator. *)
Definition anchored (M : matcher) : Prop :=
  forall prev s r,
    M prev s = Some r ->
    at_bol true prev = true /\
    exists c s', s = c :: s' /\ any_char c = true.

(** The text is at the end of a line. *)
Definition line_end (rest : jsstring) : Prop :=
  match rest with
  | [] => True
  | l :: _ => is_line_terminator l = true
  end.

(** The number of newlines the text starts with. *)
Definition lead (s : jsstring) : nat := length (take_while is_LF s).

(** The text contains three consecutive newlines. *)
Definition has_blank_run (s : jsstring) : Prop :=
  exists a b, s = a ++ [LF; LF; LF] ++ b.

(** The glyphs of the class [[•·▪▸■\-\*]]. *)
Definition list_glyphs : list char :=
  [0x2022; 0xB7; 0x25AA; 0x25B8; 0x25A0; 45; 42]%N.

(** The condition under which the callback of [paragraphs.map] returns a
    heading, in the words of the specification: [t] is the trimmed
    paragraph, [idx] its position in [arr]. *)
Definition heading_condition (t : jsstring) (idx : nat)
    (arr : list jsstring) : Prop :=
  5 < length t /\ length t < 60 /\
  matches false re_numbered_prefix t = false /\
  (forall g rest, t = g :: rest -> ~ In g list_glyphs) /\
  idx + 1 < length arr /\
  exists next, nth_error arr (idx + 1) = Some next /\ length t < length next.

(** What the callback returns for a paragraph. *)
Definition classified (t out : jsstring) : Prop :=
  out = lit "## " ++ t \/ out = t.

(** A text item with the given text and y coordinate, the other entries
    of the transform being those of unscaled text at x = 72. *)
Definition fragment (s : string) (y : float) : TextItem :=
  {| str := lit s; transform := [1; 0; 0; 1; 72; y]%float |}.

(** The double nearest to 105.01, the double that follows 5, and the
    double that precedes 3 (2.9999999999999996). *)
Definition y_105_01 : float := 0x1.a40a3d70a3d71p+6%float.
Definition next_after_5 : float := 0x1.4000000000001p+2%float.
Definition below_3 : float := 0x1.7ffffffffffffp+1%float.

(** The y coordinate read by [extractPageText]. *)
Definition y_of (item : TextItem) : option float :=
  nth_error (transform item) 5.

(** The number of positions of [s] where [pat] occurs. *)
Fixpoint occurrences (pat s : jsstring) : nat :=
  (if starts_with pat s then 1 else 0) +
  match s with
  | [] => 0
  | _ :: s' => occurrences pat s'
  end.

(** A document given by the items of its pages. *)
Definition document (pages : list (list TextItem)) : PDFDocument :=
  {| numPages := length pages;
     getTextContent := fun n => {| items := nth (n - 1) pages [] |} |}.

Definition chapter_page : list TextItem :=
  [fragment "Chapter One" 700%float;
   fragment "This is a longer line of body text that follows the title."
            650%float].

(** The text is empty or ends with a line terminator: what follows it
    starts a line. *)
Fixpoint ends_line (pre : jsstring) : bool :=
  match pre with
  | [] => true
  | c :: s =>
      match s with
      | [] => is_line_terminator c
      | _ :: _ => ends_line s
      end
  end.

(** The code units of a text that are not whitespace, in order. *)
Definition visible (s : jsstring) : jsstring :=
  filter (fun c => negb (is_space c)) s.

(** [markup_of a b]: the text [b] is the text [a] with number signs and
    hyphens inserted and bullet glyphs removed, everything else being
    kept in place and in order. *)
Inductive markup_of : jsstring -> jsstring -> Prop :=
| markup_nil : markup_of [] []
| markup_keep c a b : markup_of a b -> markup_of (c :: a) (c :: b)
| markup_hash a b : markup_of a b -> markup_of a (35%N :: b)
| markup_dash a b : markup_of a b -> markup_of a (45%N :: b)
| markup_drop g a b :
    is_bullet g = true -> markup_of a b -> markup_of (g :: a) b.

(** The code units that are neither whitespace nor markup. *)
Definition is_markup (c : char) : bool :=
  ((c =? 35) || (c =? 45))%N || is_bullet c.

Definition content (s : jsstring) : jsstring :=
  filter (fun c => negb (is_markup c)) (visible s).

(** The visible text of the items of a page, and of a document, in the
    order in which the provider gives them. *)
Definition page_fragments (tc : TextContent) : jsstring :=
  concat (map (fun item => visible (str item)) (items tc)).

Definition document_fragments (pdf : PDFDocument) : jsstring :=
  concat (map (fun n => page_fragments (getTextContent pdf n))
              (seq 1 (numPages pdf))).

(** A paragraph of plain text: one non-empty line that neither starts
    nor ends with whitespace and does not start with a bullet glyph or a
    digit. *)
Definition plain_line (s : jsstring) : bool :=
  match s with
  | [] => false
  | c :: _ => negb (is_space c) && negb (is_bullet c) && negb (is_digit c)
  end
  && forallb any_char s
  && match rev s with
     | [] => false
     | d :: _ => negb (is_space d)
     end.

(** The number of maximal runs of code units other than whitespace in
    [s]; [in_word] tells that the position is inside such a run. *)
Fixpoint word_runs (in_word : bool) (s : jsstring) : nat :=
  match s with
  | [] => 0
  | c :: s' =>
      if is_space c then word_runs false s'
      else (if in_word then 0 else 1) + word_runs true s'
  end.

Definition M_spaces : matcher := match_at false re_spaces.

(** The number of non-empty pieces. *)
Definition nonempty_pieces (l : list jsstring) : nat :=
  length (filter (fun w => 0 <? length w) l).

(** The digits [s] with a comma before every position, other than the
    first, that has a multiple of three digits after it; [after_digit]
    tells that a digit stands before [s]. *)
Fixpoint grouped (after_digit : bool) (s : jsstring) : jsstring :=
  match s with
  | [] => []
  | c :: s' =>
      (if after_digit && (length s mod 3 =? 0) then lit "," else [])
      ++ c :: grouped true s'
  end.

(** The three decimal digits of a number below 1000. *)
Definition three_digits (r : N) : jsstring :=
  [digit (r / 100); digit ((r / 10) mod 10); digit (r mod 10)]%N.

(** No numeral and period at the start of a line of the text is followed
    by whitespace only up to the end of the text; [bol] tells that the
    text starts a line. *)
Fixpoint no_open_numbered (bol : bool) (pre : jsstring) : bool :=
  match pre with
  | [] => true
  | c :: s =>
      (negb bol ||
       match head_numbered pre with
       | Some (_, x :: s1) => negb (is_space x) || negb (forallb is_space s1)
       | _ => true
       end)
      && no_open_numbered (is_line_terminator c) s
  end.

(** The items of a page grouped into lines: an item starts a new line
    when the difference between its y coordinate and that of the item
    before it, computed in double precision, is more than 5 in absolute
    value.  [cur] holds the items of the current line, [last] is the item
    read last. *)
Fixpoint lines_from (cur : list TextItem) (last : TextItem)
    (l : list TextItem) : list (list TextItem) :=
  match l with
  | [] => [cur]
  | item :: l' =>
      if gap_exceeds (y_of item) (y_of last)
      then cur :: lines_from [item] item l'
      else lines_from (cur ++ [item]) item l'
  end.

Definition lines_of (l : list TextItem) : list (list TextItem) :=
  match l with
  | [] => []
  | item :: l' => lines_from [item] item l'
  end.

(** The text of a line: every item followed by a space. *)
Definition line_text (l : list TextItem) : jsstring :=
  concat (map (fun item => str item ++ lit " ") l).

(** The lines of a page, trimmed, those made of whitespace only left
    out. *)
Definition page_lines (tc : TextContent) : list jsstring :=
  filter truthy (map (fun l => trim (line_text l)) (lines_of (items tc))).

Definition no_LF (s : jsstring) : bool :=
  forallb (fun c => negb (is_LF c)) s.

(** No item of the page holds a newline. *)
Definition single_line_items (tc : TextContent) : bool :=
  forallb (fun item => no_LF (str item)) (items tc).

(** The lines of the pages with a rule between consecutive pages. *)
Fixpoint with_rules (pages : list (list jsstring)) : list jsstring :=
  match pages with
  | [] => []
  | [p] => p
  | p :: ps => p ++ lit "---" :: with_rules ps
  end.

(** The line [a], followed by the line [b], has the length of a title,
    does not start with a hyphen or an asterisk and is shorter than
    [b]. *)
Definition title_like (a b : jsstring) : bool :=
  (5 <? length a) && (length a <? 60)
  && negb (match a with c :: _ => is_list_glyph c | [] => false end)
  && (length a <? length b).












(* ------------------------------------------------------------------ *)
(** ** Character classes *)

Ltac bool_to_prop :=
  repeat rewrite ?orb_true_iff, ?orb_false_iff, ?andb_true_iff,
    ?andb_false_iff, ?negb_true_iff, ?negb_false_iff, ?N.eqb_eq,
    ?N.eqb_neq, ?N.leb_le, ?N.leb_gt in *.

Ltac charclass :=
  unfold any_char, is_space, is_white_space, is_line_terminator, is_digit,
    is_period, is_LF, is_list_glyph, is_bullet, LF in *;
  bool_to_prop; lia.

Lemma lt_is_space c : is_line_terminator c = true -> is_space c = true.
Proof. charclass. Qed.

Lemma not_space_any c : is_space c = false -> any_char c = true.
Proof. charclass. Qed.

Lemma any_char_not_lt c : any_char c = true <-> is_line_terminator c = false.
Proof. unfold any_char. now rewrite negb_true_iff. Qed.

Lemma bullet_any c : is_bullet c = true -> any_char c = true.
Proof. charclass. Qed.

Lemma bullet_not_space c : is_bullet c = true -> is_space c = false.
Proof. charclass. Qed.

Lemma digit_any c : is_digit c = true -> any_char c = true.
Proof. charclass. Qed.

Lemma digit_not_bullet c : is_digit c = true -> is_bullet c = false.
Proof. charclass. Qed.

Lemma digit_not_period c : is_digit c = true -> is_period c = false.
Proof. charclass. Qed.

Lemma period_any c : is_period c = true -> any_char c = true.
Proof. charclass. Qed.

Lemma LF_is_lt c : is_LF c = true -> is_line_terminator c = true.
Proof. charclass. Qed.

(* ------------------------------------------------------------------ *)
(** ** The matcher *)

Lemma take_drop_while p s : take_while p s ++ drop_while p s = s.
Proof.
  induction s as [|c s IH]; simpl; [reflexivity|].
  destruct (p c); simpl; [now rewrite IH | reflexivity].
Qed.

Lemma take_while_all p s : forallb p (take_while p s) = true.
Proof.
  induction s as [|c s IH]; simpl; [reflexivity|].
  destruct (p c) eqn:E; simpl; [now rewrite E | reflexivity].
Qed.

Lemma drop_while_head p s d r : drop_while p s = d :: r -> p d = false.
Proof.
  induction s as [|c s IH]; simpl; [discriminate|].
  destruct (p c) eqn:E; [exact IH|].
  intros H; injection H as -> _; exact E.
Qed.

Lemma take_while_app_stop p a x :
  forallb p a = true ->
  match x with [] => True | d :: _ => p d = false end ->
  take_while p (a ++ x) = a.
Proof.
  intros Ha Hx. induction a as [|c a IH]; simpl in *.
  - destruct x as [|d x]; simpl; [reflexivity | now rewrite Hx].
  - apply andb_true_iff in Ha as [-> Ha]. now rewrite IH.
Qed.

Lemma drop_while_app_stop p a x :
  forallb p a = true ->
  match x with [] => True | d :: _ => p d = false end ->
  drop_while p (a ++ x) = x.
Proof.
  intros Ha Hx. induction a as [|c a IH]; simpl in *.
  - destruct x as [|d x]; simpl; [reflexivity | now rewrite Hx].
  - apply andb_true_iff in Ha as [-> Ha]. now rewrite IH.
Qed.

Lemma prev_after_app prev a b :
  prev_after prev (a ++ b) = prev_after (prev_after prev a) b.
Proof. unfold prev_after. apply fold_left_app. Qed.

Lemma prev_after_cons prev c a :
  prev_after prev (c :: a) = prev_after (Some c) a.
Proof. reflexivity. Qed.


Lemma prev_after_nonempty prev prev' a :
  a <> [] -> prev_after prev a = prev_after prev' a.
Proof.
  destruct a as [|c a]; [congruence | reflexivity].
Qed.

(** When the continuation succeeds after the longest run, the greedy
    repetition takes the longest run. *)
Lemma greedy_longest p k n prev s r :
  n <= length (take_while p s) ->
  k (prev_after prev (take_while p s)) (drop_while p s) = Some r ->
  greedy p k n prev s = Some (take_while p s, r).
Proof.
  revert n prev. induction s as [|c s IH]; intros n prev Hn Hk; simpl in *.
  - assert (n = 0) by lia. subst n. now rewrite Hk.
  - destruct (p c) eqn:E; simpl in *.
    + rewrite (IH (pred n) (Some c)); [reflexivity | lia | exact Hk].
    + assert (n = 0) by lia. subst n. now rewrite Hk.
Qed.

Lemma greedy_short p k n prev s :
  length (take_while p s) < n -> greedy p k n prev s = None.
Proof.
  revert n prev. induction s as [|c s IH]; intros n prev Hn; simpl in *.
  - destruct n; [lia | reflexivity].
  - destruct (p c) eqn:E; simpl in *.
    + rewrite (IH (pred n) (Some c)) by lia. destruct n; [lia | reflexivity].
    + destruct n; [lia | reflexivity].
Qed.

(** When the continuation cannot start with a code unit of the class,
    giving back iterations never helps. *)
Lemma greedy_no_backtrack p k n prev s :
  (forall q c s', p c = true -> k q (c :: s') = None) ->
  greedy p k n prev s =
    if n <=? length (take_while p s)
    then option_map (pair (take_while p s))
           (k (prev_after prev (take_while p s)) (drop_while p s))
    else None.
Proof.
  intros Hk. revert n prev.
  induction s as [|c s IH]; intros n prev; simpl.
  - destruct n; reflexivity.
  - destruct (p c) eqn:E; simpl.
    + rewrite (IH (pred n) (Some c)).
      replace (pred n <=? length (take_while p s))
        with (n <=? S (length (take_while p s))).
      2:{ destruct n; [reflexivity|]. simpl. reflexivity. }
      destruct (n <=? S (length (take_while p s))) eqn:Hle.
      * unfold prev_after at 2. simpl. fold (prev_after (Some c) (take_while p s)).
        destruct (k (prev_after (Some c) (take_while p s)) (drop_while p s));
          simpl; [reflexivity|].
        destruct n; [|reflexivity]. now rewrite (Hk prev c s E).
      * destruct n; [discriminate | reflexivity].
    + destruct n; reflexivity.
Qed.

(** [(.+)$] with the [m] flag: the rest of the line, when not empty. *)
Lemma exec_text_eol prev s :
  exec true [AtLeast 1 any_char; Eol] prev s =
    match s with
    | [] => None
    | c :: _ =>
        if any_char c then Some [take_while any_char s; []] else None
    end.
Proof.
  cbn [exec]. destruct s as [|c s]; [reflexivity|].
  destruct (any_char c) eqn:E.
  - erewrite greedy_longest; [reflexivity | simpl; rewrite E; simpl; lia |].
    destruct (drop_while any_char (c :: s)) as [|d r] eqn:Hd; [reflexivity|].
    apply drop_while_head in Hd. unfold at_eol.
    apply negb_false_iff in Hd. now rewrite Hd.
  - rewrite greedy_short; [reflexivity | simpl; rewrite E; simpl; lia].
Qed.

Lemma greedy_spaces_text prev s :
  greedy is_space (exec true [AtLeast 1 any_char; Eol]) 0 prev s =
    option_map (fun wc => (fst wc, [snd wc; []])) (text_after_spaces s).
Proof.
  revert prev. induction s as [|c s IH]; intros prev.
  - reflexivity.
  - cbn [greedy text_after_spaces pred]. rewrite IH, exec_text_eol.
    destruct (is_space c); destruct (text_after_spaces s) as [[w cap]|];
      destruct (any_char c); reflexivity.
Qed.

(** [\s+(.+)$] with the [m] flag. *)
Lemma exec_spaces_text prev s :
  exec true [AtLeast 1 is_space; AtLeast 1 any_char; Eol] prev s =
    match s with
    | [] => None
    | c :: s' =>
        if is_space c then
          option_map (fun wc => [c :: fst wc; snd wc; []])
                     (text_after_spaces s')
        else None
    end.
Proof.
  cbn [exec]. destruct s as [|c s]; [reflexivity|].
  change (greedy is_space ?k 1 prev (c :: s))
    with (let stop := @None (jsstring * list jsstring) in
          if is_space c then
            match greedy is_space k 0 (Some c) s with
            | Some (w, r) => Some (c :: w, r)
            | None => stop
            end
          else stop).
  cbv zeta. destruct (is_space c); [|reflexivity].
  change (greedy is_space _ 0 (Some c) s)
    with (greedy is_space (exec true [AtLeast 1 any_char; Eol]) 0 (Some c) s).
  rewrite greedy_spaces_text.
  destruct (text_after_spaces s) as [[w cap]|]; reflexivity.
Qed.

Lemma exec_Bol m re prev s :
  exec m (Bol :: re) prev s =
    if at_bol m prev then option_map (cons []) (exec m re prev s) else None.
Proof. reflexivity. Qed.

Lemma exec_Class m p re prev s :
  exec m (Class p :: re) prev s =
    match s with
    | [] => None
    | c :: s' =>
        if p c then option_map (cons [c]) (exec m re (Some c) s') else None
    end.
Proof. reflexivity. Qed.

Lemma exec_AtLeast m n p re prev s :
  exec m (AtLeast n p :: re) prev s =
    option_map (fun wr => fst wr :: snd wr) (greedy p (exec m re) n prev s).
Proof. reflexivity. Qed.

(** The two list-item patterns in closed form. *)
Lemma match_at_bullet_line prev s :
  match_at true re_bullet_line prev s =
    if at_bol true prev then
      option_map (fun hwc => match hwc with
                             | (h, w, cap) => (h ++ w ++ cap, [h; cap])
                             end)
                 (item_match head_bullet s)
    else None.
Proof.
  unfold match_at, re_bullet_line. cbn [map atom_of].
  rewrite exec_Bol. destruct (at_bol true prev); [|reflexivity].
  rewrite exec_Class. unfold item_match, head_bullet.
  destruct s as [|g s]; [reflexivity|].
  destruct (is_bullet g); [|reflexivity].
  rewrite exec_spaces_text.
  destruct s as [|c s]; [reflexivity|].
  destruct (is_space c); [|reflexivity].
  destruct (text_after_spaces s) as [[w cap]|]; [|reflexivity].
  cbn. now rewrite app_nil_r.
Qed.

Lemma match_at_numbered_line prev s :
  match_at true re_numbered_line prev s =
    if at_bol true prev then
      option_map (fun hwc => match hwc with
                             | (h, w, cap) =>
                                 (h ++ w ++ cap, [removelast h; cap])
                             end)
                 (item_match head_numbered s)
    else None.
Proof.
  unfold match_at, re_numbered_line. cbn [map atom_of].
  rewrite exec_Bol. destruct (at_bol true prev); [|reflexivity].
  rewrite exec_AtLeast, greedy_no_backtrack.
  2:{ intros q c s' Hc. rewrite exec_Class.
      now rewrite (digit_not_period c Hc). }
  unfold item_match, head_numbered.
  destruct (take_while is_digit s) as [|d D] eqn:HD; [reflexivity|].
  cbn [length Nat.leb].
  destruct (drop_while is_digit s) as [|dot s1]; [reflexivity|].
  rewrite exec_Class. destruct (is_period dot); [|reflexivity].
  rewrite exec_spaces_text.
  destruct s1 as [|c s1]; [reflexivity|].
  destruct (is_space c); [|reflexivity].
  destruct (text_after_spaces s1) as [[w cap]|]; [|reflexivity].
  unfold option_map. cbv beta iota. rewrite removelast_last.
  cbn. now rewrite app_nil_r, <- app_assoc.
Qed.

(* ------------------------------------------------------------------ *)
(** ** The global replacement scan *)

Section Scan.

Variable M : matcher.
Variable repl : list jsstring -> jsstring.
Hypothesis M_sound : sound M.

Lemma scan_nil prev : scan M repl 0 prev [] = [].
Proof.
  simpl. destruct (M prev []) as [[matched caps]|] eqn:E; [|reflexivity].
  destruct (M_sound _ _ _ _ E) as [Hne [rest Hr]].
  destruct matched; [congruence | discriminate].
Qed.

Lemma scan_copy prev c s :
  M prev (c :: s) = None ->
  scan M repl 0 prev (c :: s) = c :: scan M repl 0 (Some c) s.
Proof. intros E. simpl. now rewrite E. Qed.

Lemma scan_skip a rest prev :
  scan M repl (length a) prev (a ++ rest) =
  scan M repl 0 (prev_after prev a) rest.
Proof.
  revert prev. induction a as [|c a IH]; intros prev.
  - reflexivity.
  - destruct rest; simpl; apply IH.
Qed.

Lemma scan_match prev matched caps rest :
  M prev (matched ++ rest) = Some (matched, caps) ->
  scan M repl 0 prev (matched ++ rest) =
  repl caps ++ scan M repl 0 (prev_after prev matched) rest.
Proof.
  intros E. destruct (M_sound _ _ _ _ E) as [Hne _].
  destruct matched as [|c m]; [congruence|].
  simpl app. cbn [scan]. simpl app in E. rewrite E. f_equal.
  cbn [length]. rewrite scan_skip. reflexivity.
Qed.

(** Induction along the scan. *)
Lemma scan_ind (P : option char -> jsstring -> jsstring -> Prop) :
  (forall prev, P prev [] []) ->
  (forall prev c s,
      M prev (c :: s) = None ->
      P (Some c) s (scan M repl 0 (Some c) s) ->
      P prev (c :: s) (c :: scan M repl 0 (Some c) s)) ->
  (forall prev matched caps rest,
      M prev (matched ++ rest) = Some (matched, caps) ->
      matched <> [] ->
      P (prev_after prev matched) rest
        (scan M repl 0 (prev_after prev matched) rest) ->
      P prev (matched ++ rest)
        (repl caps ++ scan M repl 0 (prev_after prev matched) rest)) ->
  forall prev s, P prev s (scan M repl 0 prev s).
Proof.
  intros Hnil Hcopy Hmatch prev s.
  remember (length s) as n eqn:Hn. revert prev s Hn.
  induction n as [n IH] using lt_wf_ind. intros prev s Hn.
  destruct s as [|c s].
  - rewrite scan_nil. apply Hnil.
  - destruct (M prev (c :: s)) as [[matched caps]|] eqn:E.
    + destruct (M_sound _ _ _ _ E) as [Hne [rest Hr]].
      rewrite Hr in E |- *. rewrite (scan_match _ _ _ _ E).
      apply Hmatch; [exact E | exact Hne |].
      apply (IH (length rest)); [|reflexivity].
      subst n. rewrite Hr, length_app.
      destruct matched; [congruence | simpl; lia].
    + rewrite (scan_copy _ _ _ E). apply Hcopy; [exact E|].
      apply (IH (length s)); [subst n; simpl; lia | reflexivity].
Qed.

(** Where nothing matches the scan copies its input. *)
Lemma scan_no_match prev s : no_match M prev s -> scan M repl 0 prev s = s.
Proof.
  revert prev. induction s as [|c s IH]; intros prev H.
  - apply scan_nil.
  - destruct H as [E H]. rewrite (scan_copy _ _ _ E). now rewrite IH.
Qed.

(** The first position only looks at [prev]. *)
Lemma scan_prev prev prev' s :
  M prev s = M prev' s -> scan M repl 0 prev s = scan M repl 0 prev' s.
Proof.
  intros E. destruct s as [|c s]; simpl; now rewrite E.
Qed.

(** A replacement that keeps the code units selected by [f] in every
    match keeps them in the whole text. *)
Lemma scan_filter (f : char -> bool) :
  (forall prev s matched caps,
      M prev s = Some (matched, caps) ->
      filter f (repl caps) = filter f matched) ->
  forall prev s, filter f (scan M repl 0 prev s) = filter f s.
Proof.
  intros Hf. apply (scan_ind (fun _ s out => filter f out = filter f s)).
  - reflexivity.
  - intros prev c s _ IH. simpl. now rewrite IH.
  - intros prev matched caps rest E _ IH.
    rewrite !filter_app, IH. f_equal. exact (Hf _ _ _ _ E).
Qed.


End Scan.

(* ------------------------------------------------------------------ *)
(** ** Spaces then text *)

Lemma text_after_spaces_none s :
  text_after_spaces s = None <-> forallb is_line_terminator s = true.
Proof.
  induction s as [|c s IH]; simpl; [tauto|].
  unfold any_char.
  destruct (is_line_terminator c) eqn:El; simpl.
  - rewrite (lt_is_space c El).
    destruct (text_after_spaces s) as [[w cap]|].
    + split; [discriminate|]. intros H. apply IH in H. discriminate.
    + split; [|reflexivity]. intros _. now apply IH.
  - destruct (is_space c); destruct (text_after_spaces s) as [[w cap]|];
      split; discriminate.
Qed.

Lemma take_line_spec s :
  exists rest,
    s = take_while any_char s ++ rest /\ line_end rest.
Proof.
  exists (drop_while any_char s). split.
  - symmetry. apply take_drop_while.
  - destruct (drop_while any_char s) as [|l r] eqn:E; simpl; [exact I|].
    apply drop_while_head in E. now apply negb_false_iff in E.
Qed.

Lemma text_after_spaces_spec s w cap :
  text_after_spaces s = Some (w, cap) ->
  exists c0 cap' rest,
    s = w ++ cap ++ rest /\
    cap = c0 :: cap' /\
    forallb is_space w = true /\
    forallb any_char cap = true /\
    line_end rest /\
    (is_space c0 = false \/
     (cap' = [] /\ forallb is_line_terminator rest = true)).
Proof.
  revert w cap. induction s as [|c s IH]; intros w cap H; [discriminate|].
  cbn [text_after_spaces] in H.
  assert (Hhere :
    (if any_char c then Some ([], take_while any_char (c :: s)) else None)
      = Some (w, cap) ->
    (is_space c = false \/ forallb is_line_terminator s = true) ->
    exists c0 cap' rest,
      c :: s = w ++ cap ++ rest /\ cap = c0 :: cap' /\
      forallb is_space w = true /\ forallb any_char cap = true /\
      line_end rest /\
      (is_space c0 = false \/
       (cap' = [] /\ forallb is_line_terminator rest = true))).
  { intros Hh Hc. destruct (any_char c) eqn:Ea; [|discriminate].
    injection Hh as <- <-.
    destruct (take_line_spec (c :: s)) as [rest [Hs Hr]].
    simpl in Hs. rewrite Ea in Hs. simpl. rewrite Ea.
    exists c, (take_while any_char s), rest.
    repeat split; try assumption.
    - simpl. rewrite Ea. apply take_while_all.
    - destruct Hc as [Hc|Hc]; [now left | right].
      injection Hs as Hs.
      destruct s as [|d s']; simpl in *.
      + split; [reflexivity|]. now subst rest.
      + apply andb_true_iff in Hc as [Hd Hc].
        unfold any_char in Hs |- *. rewrite Hd in *. simpl in *.
        split; [reflexivity|]. subst rest. simpl.
        now rewrite Hd, Hc. }
  destruct (is_space c) eqn:Es.
  - destruct (text_after_spaces s) as [[w' cap0]|] eqn:Et.
    + injection H as <- <-.
      destruct (IH _ _ eq_refl) as (c0 & cap' & rest & Hs & Hc & Hw & Ha & Hr & Hd).
      exists c0, cap', rest. repeat split; try assumption.
      * simpl. now rewrite Hs.
      * simpl. now rewrite Es.
    + apply Hhere; [exact H|]. right. now apply text_after_spaces_none.
  - apply Hhere; [exact H | now left].
Qed.

(** After the replacement the captured text is found again after one
    space. *)
Lemma text_after_spaces_again c0 cap' X :
  forallb any_char (c0 :: cap') = true ->
  line_end X ->
  (is_space c0 = false \/
   (cap' = [] /\ forallb is_line_terminator X = true)) ->
  text_after_spaces ((c0 :: cap') ++ X) = Some ([], c0 :: cap').
Proof.
  intros Ha HX Hc. simpl in Ha. apply andb_true_iff in Ha as [Ha0 Ha].
  assert (Htake : take_while any_char ((c0 :: cap') ++ X) = c0 :: cap').
  { apply take_while_app_stop.
    - simpl. now rewrite Ha0, Ha.
    - destruct X as [|l X]; [exact I|]. simpl in HX. unfold any_char.
      now rewrite HX. }
  cbn [app text_after_spaces]. rewrite Ha0.
  change (c0 :: cap' ++ X) with ((c0 :: cap') ++ X). rewrite Htake.
  destruct Hc as [Hc | [-> Hc]].
  - now rewrite Hc.
  - simpl. apply text_after_spaces_none in Hc. rewrite Hc.
    now destruct (is_space c0).
Qed.

(* ------------------------------------------------------------------ *)
(** ** Scans with a pattern anchored at the start of a line *)

Lemma prev_after_any x a :
  any_char x = true -> forallb any_char a = true ->
  exists y, prev_after (Some x) a = Some y /\ any_char y = true.
Proof.
  revert x. induction a as [|c a IH]; intros x Hx Ha.
  - now exists x.
  - simpl in Ha. apply andb_true_iff in Ha as [Hc Ha].
    rewrite prev_after_cons. now apply IH.
Qed.

Section AnchoredScan.

Variable M : matcher.
Variable repl : list jsstring -> jsstring.
Hypothesis M_sound : sound M.
Hypothesis M_anchored : anchored M.

Lemma anchored_mid x s : any_char x = true -> M (Some x) s = None.
Proof.
  intros Hx. destruct (M (Some x) s) eqn:E; [|reflexivity].
  apply M_anchored in E as [Hb _]. simpl in Hb.
  apply any_char_not_lt in Hx. congruence.
Qed.

Lemma anchored_lt prev l s :
  is_line_terminator l = true -> M prev (l :: s) = None.
Proof.
  intros Hl. destruct (M prev (l :: s)) eqn:E; [|reflexivity].
  apply M_anchored in E as [_ (c & s' & Hs & Hc)].
  injection Hs as <- _. apply any_char_not_lt in Hc. congruence.
Qed.

Lemma scan_all_lt prev s :
  forallb is_line_terminator s = true -> scan M repl 0 prev s = s.
Proof.
  revert prev. induction s as [|l s IH]; intros prev H.
  - now apply scan_nil.
  - simpl in H. apply andb_true_iff in H as [Hl H].
    rewrite scan_copy by now apply anchored_lt. now rewrite IH.
Qed.


Lemma scan_prefix_inv a x s o :
  forallb any_char a = true -> any_char x = true ->
  scan M repl 0 (Some x) s = a ++ o ->
  exists s1, s = a ++ s1 /\ o = scan M repl 0 (prev_after (Some x) a) s1.
Proof.
  revert x s. induction a as [|c a IH]; intros x s Ha Hx H.
  - exists s. now split.
  - simpl in Ha. apply andb_true_iff in Ha as [Hc Ha].
    destruct s as [|d s].
    + rewrite scan_nil in H by assumption. discriminate.
    + rewrite scan_copy in H by now apply anchored_mid.
      injection H as -> H.
      destruct (IH c s Ha Hc H) as [s1 [-> Ho]].
      exists s1. now split.
Qed.

Lemma scan_line_end x rest :
  any_char x = true -> line_end rest ->
  line_end (scan M repl 0 (Some x) rest).
Proof.
  intros Hx Hr. destruct rest as [|l r].
  - now rewrite scan_nil.
  - rewrite scan_copy by now apply anchored_mid. exact Hr.
Qed.

(** Inside a chunk of text without line terminators nothing matches. *)
Lemma no_match_chunk a x X :
  forallb any_char a = true -> any_char x = true ->
  no_match M (prev_after (Some x) a) X ->
  no_match M (Some x) (a ++ X).
Proof.
  revert x. induction a as [|c a IH]; intros x Ha Hx H; [exact H|].
  simpl in Ha. apply andb_true_iff in Ha as [Hc Ha].
  simpl. split; [now apply anchored_mid | now apply IH].
Qed.

Lemma no_match_replaced prev c a X :
  forallb any_char (c :: a) = true ->
  M prev (c :: a ++ X) = None ->
  no_match M (prev_after (Some c) a) X ->
  no_match M prev ((c :: a) ++ X).
Proof.
  intros Ha E H. simpl in Ha. apply andb_true_iff in Ha as [Hc Ha].
  split; [exact E | now apply no_match_chunk].
Qed.

Lemma no_match_suffix prev a X :
  no_match M prev (a ++ X) -> no_match M (prev_after prev a) X.
Proof.
  revert prev. induction a as [|c a IH]; intros prev H; [exact H|].
  destruct H as [_ H]. rewrite prev_after_cons. now apply IH.
Qed.

End AnchoredScan.

(* ------------------------------------------------------------------ *)
(** ** List-item patterns *)

Section ListItem.

Variable head : jsstring -> option (jsstring * jsstring).
Variable M : matcher.
Variable caps : jsstring -> jsstring -> list jsstring.

Hypothesis M_spec : forall prev s,
  M prev s =
    if at_bol true prev then
      option_map (fun hwc => match hwc with
                             | (h, w, cap) => (h ++ w ++ cap, caps h cap)
                             end)
                 (item_match head s)
    else None.

Hypothesis head_split : forall s h s1,
  head s = Some (h, s1) ->
  s = h ++ s1 /\ h <> [] /\ forallb any_char h = true.

Hypothesis head_local : forall s h s1 x,
  head s = Some (h, s1) -> head (h ++ x) = Some (h, x).

Lemma item_match_inv s h w cap :
  item_match head s = Some (h, w, cap) ->
  exists c w' s1,
    head s = Some (h, c :: s1) /\ is_space c = true /\
    w = c :: w' /\ text_after_spaces s1 = Some (w', cap).
Proof.
  unfold item_match.
  destruct (head s) as [[h0 [|c s1]]|]; try discriminate.
  destruct (is_space c) eqn:E; try discriminate.
  destruct (text_after_spaces s1) as [[w' cap']|] eqn:Et; try discriminate.
  intros H. injection H as -> <- <-. exists c, w', s1. auto.
Qed.

Lemma M_inv prev s matched cs :
  M prev s = Some (matched, cs) ->
  at_bol true prev = true /\
  exists h w cap,
    item_match head s = Some (h, w, cap) /\
    matched = h ++ w ++ cap /\ cs = caps h cap.
Proof.
  rewrite M_spec. destruct (at_bol true prev); [|discriminate].
  destruct (item_match head s) as [[[h w] cap]|]; [|discriminate].
  intros H. injection H as <- <-. split; [reflexivity|].
  exists h, w, cap. auto.
Qed.

Lemma item_sound : sound M.
Proof.
  intros prev s matched cs H.
  apply M_inv in H as (_ & h & w & cap & Hm & -> & _).
  apply item_match_inv in Hm as (c & w' & s1 & Hh & _ & -> & Ht).
  apply head_split in Hh as (-> & Hne & _).
  apply text_after_spaces_spec in Ht as (c0 & cap' & rest & -> & _).
  split.
  - destruct h; [congruence | discriminate].
  - exists rest. now rewrite <- !app_assoc.
Qed.

Lemma item_anchored : anchored M.
Proof.
  intros prev s r H. destruct r as [matched cs].
  apply M_inv in H as (Hb & h & w & cap & Hm & _).
  split; [exact Hb|].
  apply item_match_inv in Hm as (c & w' & s1 & Hh & _).
  apply head_split in Hh as (-> & Hne & Ha).
  destruct h as [|d h]; [congruence|].
  simpl in Ha. apply andb_true_iff in Ha as [Hd _].
  exists d, (h ++ c :: s1). now split.
Qed.

Lemma M_fails_head prev s : head s = None -> M prev s = None.
Proof.
  intros H. rewrite M_spec. unfold item_match. rewrite H.
  now destruct (at_bol true prev).
Qed.

Section Stable.

Variable M2 : matcher.
Variable repl2 : list jsstring -> jsstring.
Hypothesis M2_sound : sound M2.
Hypothesis M2_anchored : anchored M2.

(** A position where the pattern fails still fails after the text that
    follows has been rewritten. *)
Lemma stable prev c s :
  M prev (c :: s) = None ->
  M prev (c :: scan M2 repl2 0 (Some c) s) = None.
Proof.
  intros H. rewrite M_spec in *.
  destruct (at_bol true prev); [|reflexivity].
  destruct (item_match head (c :: scan M2 repl2 0 (Some c) s))
    as [[[h w] cap]|] eqn:E; [|reflexivity].
  exfalso.
  apply item_match_inv in E as (c1 & w' & o2 & Hh & Hc1 & -> & Ht).
  destruct (head_split _ _ _ Hh) as (Hs & Hne & Hany).
  destruct h as [|c' h']; [congruence|].
  injection Hs as <- Hs.
  simpl in Hany. apply andb_true_iff in Hany as [Hc Hh'].
  destruct (scan_prefix_inv M2 repl2 M2_sound M2_anchored _ _ _ _ Hh' Hc Hs)
    as [s1 [-> Ho]].
  destruct (prev_after_any c h' Hc Hh') as [x [Hx Hax]].
  rewrite Hx in Ho.
  destruct s1 as [|c1' s2].
  { rewrite scan_nil in Ho by assumption. discriminate. }
  rewrite scan_copy in Ho
    by now apply (anchored_mid M2 M2_anchored).
  injection Ho as <- ->.
  pose proof (head_local _ _ _ (c1 :: s2) Hh) as Hh2.
  simpl in Hh2. unfold item_match in H. rewrite Hh2, Hc1 in H.
  destruct (text_after_spaces s2) as [[w2 cap2]|] eqn:Et; [discriminate|].
  apply text_after_spaces_none in Et.
  rewrite (scan_all_lt M2 repl2 M2_sound M2_anchored) in Ht by exact Et.
  apply text_after_spaces_none in Et. congruence.
Qed.

End Stable.

(** The marker written by the replacement is the one that was read: the
    rewritten item matches again, with the same captures. *)
Lemma rematch repl prev matched cs rest :
  (forall s h s1 cap,
      head s = Some (h, s1) -> repl (caps h cap) = h ++ lit " " ++ cap) ->
  M prev (matched ++ rest) = Some (matched, cs) ->
  M prev (repl cs ++ scan M repl 0 (prev_after prev matched) rest)
    = Some (repl cs, cs) /\
  prev_after prev (repl cs) = prev_after prev matched.
Proof.
  intros Hrepl H.
  pose proof (M_inv _ _ _ _ H) as (Hb & h & w & cap & Hm & Hmatched & ->).
  apply item_match_inv in Hm as (c & w' & s1 & Hh & Hc & -> & Ht).
  destruct (head_split _ _ _ Hh) as (Hs & Hne & Hany).
  apply text_after_spaces_spec in Ht
    as (c0 & cap' & rest' & Hs1 & Hcap & Hw & Hacap & Hend & Hdisj).
  assert (rest' = rest) as ->.
  { rewrite Hmatched, Hs1 in Hs.
    repeat (rewrite <- app_assoc in Hs; simpl in Hs).
    apply app_inv_head in Hs. injection Hs as Hs.
    apply app_inv_head in Hs. now apply app_inv_head in Hs. }
  assert (Hlast : exists y, prev_after prev matched = Some y
                            /\ any_char y = true
                            /\ prev_after prev (repl (caps h cap)) = Some y).
  { rewrite (Hrepl _ _ _ cap Hh), Hmatched, Hcap.
    rewrite !prev_after_app, !prev_after_cons.
    subst cap. simpl in Hacap. apply andb_true_iff in Hacap as [Hc0 Hacap].
    destruct (prev_after_any c0 cap' Hc0 Hacap) as [y [Hy Hay]].
    exists y. auto. }
  destruct Hlast as (y & Hy & Hay & Hy').
  split; [|congruence].
  rewrite Hy, M_spec, Hb, (Hrepl _ _ _ cap Hh). unfold item_match.
  rewrite <- app_assoc.
  rewrite (head_local _ _ _ _ Hh). cbn [lit app].
  change (is_space (N_of_ascii " ")) with true. cbv iota.
  assert (HX : text_after_spaces
                 (cap ++ scan M repl 0 (Some y) rest) = Some ([], cap)).
  { subst cap. apply text_after_spaces_again; [exact Hacap | |].
    - apply (scan_line_end M repl item_sound item_anchored); assumption.
    - destruct Hdisj as [Hd | [Hd Hl]]; [now left | right].
      split; [exact Hd|].
      now rewrite (scan_all_lt M repl item_sound item_anchored). }
  rewrite HX. reflexivity.
Qed.

Lemma M_match_spaces prev s matched cs :
  M prev s = Some (matched, cs) ->
  exists h w cap s1,
    head s = Some (h, s1) /\ matched = h ++ w ++ cap /\ cs = caps h cap /\
    forallb is_space w = true.
Proof.
  intros H. apply M_inv in H as (_ & h & w & cap & Hm & -> & ->).
  apply item_match_inv in Hm as (c & w' & s1 & Hh & Hc & -> & Ht).
  apply text_after_spaces_spec in Ht
    as (c0 & cap' & rest & _ & _ & Hw & _).
  exists h, (c :: w'), cap, (c :: s1).
  repeat split; try assumption. simpl. now rewrite Hc.
Qed.

Lemma M_match_shape prev s matched cs :
  M prev s = Some (matched, cs) ->
  exists h w cap s1,
    head s = Some (h, s1) /\ matched = h ++ w ++ cap /\ cs = caps h cap /\
    cap <> [] /\ forallb any_char cap = true /\ forallb any_char h = true.
Proof.
  intros H. apply M_inv in H as (_ & h & w & cap & Hm & -> & ->).
  apply item_match_inv in Hm as (c & w' & s1 & Hh & _ & -> & Ht).
  destruct (head_split _ _ _ Hh) as (_ & _ & Hany).
  apply text_after_spaces_spec in Ht
    as (c0 & cap' & rest & _ & -> & _ & Hacap & _).
  exists h, (c :: w'), (c0 :: cap'), (c :: s1).
  repeat split; try assumption. discriminate.
Qed.

End ListItem.

(* ------------------------------------------------------------------ *)
(** ** The two normalisation steps *)

Lemma head_bullet_split s h s1 :
  head_bullet s = Some (h, s1) ->
  s = h ++ s1 /\ h <> [] /\ forallb any_char h = true.
Proof.
  unfold head_bullet. destruct s as [|g s]; [discriminate|].
  destruct (is_bullet g) eqn:E; [|discriminate].
  intros H. injection H as <- <-. repeat split; [discriminate|].
  simpl. now rewrite (bullet_any g E).
Qed.

Lemma head_bullet_local s h s1 x :
  head_bullet s = Some (h, s1) -> head_bullet (h ++ x) = Some (h, x).
Proof.
  unfold head_bullet. destruct s as [|g s]; [discriminate|].
  destruct (is_bullet g) eqn:E; [|discriminate].
  intros H. injection H as <- <-. simpl. now rewrite E.
Qed.

Lemma head_numbered_inv s h s1 :
  head_numbered s = Some (h, s1) ->
  exists d D,
    h = (d :: D) ++ [46%N] /\ s = h ++ s1 /\
    forallb is_digit (d :: D) = true.
Proof.
  unfold head_numbered.
  pose proof (take_drop_while is_digit s) as Hs.
  pose proof (take_while_all is_digit s) as Hd.
  destruct (take_while is_digit s) as [|d D]; [discriminate|].
  destruct (drop_while is_digit s) as [|dot r]; [discriminate|].
  destruct (is_period dot) eqn:E; [|discriminate].
  intros H. injection H as <- <-.
  assert (dot = 46%N) as -> by charclass.
  exists d, D. repeat split; [|exact Hd].
  rewrite <- Hs. simpl. now rewrite <- app_assoc.
Qed.

Lemma forallb_digit_any D :
  forallb is_digit D = true -> forallb any_char D = true.
Proof.
  induction D as [|d D IH]; simpl; [reflexivity|].
  intros H. apply andb_true_iff in H as [Hd H].
  now rewrite (digit_any d Hd), IH.
Qed.

Lemma head_numbered_split s h s1 :
  head_numbered s = Some (h, s1) ->
  s = h ++ s1 /\ h <> [] /\ forallb any_char h = true.
Proof.
  intros H. apply head_numbered_inv in H as (d & D & -> & Hs & Hd).
  split; [exact Hs | split; [discriminate|]].
  rewrite forallb_app. apply andb_true_iff.
  split; [now apply forallb_digit_any | reflexivity].
Qed.

Lemma head_numbered_local s h s1 x :
  head_numbered s = Some (h, s1) -> head_numbered (h ++ x) = Some (h, x).
Proof.
  intros H. apply head_numbered_inv in H as (d & D & -> & _ & Hd).
  unfold head_numbered. rewrite <- app_assoc.
  rewrite take_while_app_stop, drop_while_app_stop by (exact Hd || reflexivity).
  reflexivity.
Qed.

Lemma repl_numbered_caps s h s1 cap :
  head_numbered s = Some (h, s1) ->
  repl_numbered [removelast h; cap] = h ++ lit " " ++ cap.
Proof.
  intros H. apply head_numbered_inv in H as (d & D & -> & _ & _).
  rewrite removelast_last. unfold repl_numbered, expand. cbn [flat_map].
  cbn [Nat.sub nth]. rewrite app_nil_r, <- !app_assoc. reflexivity.
Qed.

Lemma repl_bullet_caps h cap :
  repl_bullet [h; cap] = lit "- " ++ cap.
Proof.
  unfold repl_bullet, expand. cbn [flat_map Nat.sub nth].
  now rewrite app_nil_r.
Qed.

Lemma M_bullet_sound : sound M_bullet.
Proof.
  exact (item_sound head_bullet M_bullet _ match_at_bullet_line
           head_bullet_split).
Qed.

Lemma M_bullet_anchored : anchored M_bullet.
Proof.
  exact (item_anchored head_bullet M_bullet _ match_at_bullet_line
           head_bullet_split).
Qed.

Lemma M_numbered_sound : sound M_numbered.
Proof.
  exact (item_sound head_numbered M_numbered _ match_at_numbered_line
           head_numbered_split).
Qed.

Lemma M_numbered_anchored : anchored M_numbered.
Proof.
  exact (item_anchored head_numbered M_numbered _ match_at_numbered_line
           head_numbered_split).
Qed.

Lemma prev_after_end p a cap :
  cap <> [] -> prev_after p (a ++ cap) = prev_after None cap.
Proof.
  intros H. rewrite prev_after_app. now apply prev_after_nonempty.
Qed.

(** After step 4 no line is a bullet item any more. *)
Lemma bullets_normal_form prev s :
  no_match M_bullet prev (scan M_bullet repl_bullet 0 prev s).
Proof.
  revert prev s.
  apply (scan_ind M_bullet repl_bullet M_bullet_sound
           (fun prev _ out => no_match M_bullet prev out)).
  - intros prev. split; [|exact I].
    destruct (M_bullet prev []) as [[m cs]|] eqn:E; [|reflexivity].
    apply M_bullet_sound in E as [Hne [rest Hr]].
    destruct m; [congruence | discriminate].
  - intros prev c s E IH. split; [|exact IH].
    apply (stable head_bullet M_bullet _ match_at_bullet_line
             head_bullet_split head_bullet_local
             M_bullet repl_bullet M_bullet_sound M_bullet_anchored).
    exact E.
  - intros prev matched cs rest E _ IH.
    apply (M_match_shape head_bullet M_bullet _ match_at_bullet_line
             head_bullet_split) in E
      as (h & w & cap & s1 & _ & -> & -> & Hne & Hacap & _).
    rewrite repl_bullet_caps.
    apply (no_match_replaced M_bullet M_bullet_anchored).
    + simpl. exact Hacap.
    + apply (M_fails_head head_bullet M_bullet _ match_at_bullet_line).
      reflexivity.
    + rewrite (app_assoc h w cap),
        (prev_after_end prev (h ++ w) cap Hne) in IH |- *.
      change (N_of_ascii " " :: cap) with ([N_of_ascii " "] ++ cap).
      now rewrite (prev_after_end _ _ cap Hne).
Qed.

(** Step 5 does not make a line a bullet item. *)
Lemma bullets_stay_normal prev z :
  no_match M_bullet prev z ->
  no_match M_bullet prev (scan M_numbered repl_numbered 0 prev z).
Proof.
  revert prev z.
  apply (scan_ind M_numbered repl_numbered M_numbered_sound
           (fun prev z out =>
              no_match M_bullet prev z -> no_match M_bullet prev out)).
  - intros prev H. exact H.
  - intros prev c s _ IH [E H]. split; [|now apply IH].
    apply (stable head_bullet M_bullet _ match_at_bullet_line
             head_bullet_split head_bullet_local
             M_numbered repl_numbered M_numbered_sound M_numbered_anchored).
    exact E.
  - intros prev matched cs rest E _ IH H.
    apply (no_match_suffix M_bullet) in H. apply IH in H. clear IH.
    apply (M_match_shape head_numbered M_numbered _ match_at_numbered_line
             head_numbered_split) in E
      as (h & w & cap & s1 & Hh & -> & -> & Hne & Hacap & Hah).
    rewrite (repl_numbered_caps _ _ _ cap Hh).
    apply head_numbered_inv in Hh as (d & D & -> & _ & Hd).
    replace (((d :: D) ++ [46%N]) ++ lit " " ++ cap)
      with (d :: (D ++ [46%N] ++ lit " " ++ cap))
      by (simpl; now rewrite <- app_assoc).
    simpl in Hd. apply andb_true_iff in Hd as [Hd HD].
    apply (no_match_replaced M_bullet M_bullet_anchored prev d
             (D ++ [46%N] ++ lit " " ++ cap)).
    + cbn [forallb]. rewrite (digit_any d Hd). cbn [andb].
      rewrite !forallb_app, Hacap.
      apply andb_true_iff. split; [now apply forallb_digit_any | reflexivity].
    + apply (M_fails_head head_bullet M_bullet _ match_at_bullet_line).
      unfold head_bullet. now rewrite (digit_not_bullet d Hd).
    + rewrite (app_assoc _ w cap),
        (prev_after_end prev _ cap Hne) in H |- *.
      rewrite !app_assoc, (prev_after_end _ _ cap Hne).
      exact H.
Qed.

(** Step 5 is idempotent. *)
Lemma numbered_idempotent prev s :
  scan M_numbered repl_numbered 0 prev
    (scan M_numbered repl_numbered 0 prev s)
  = scan M_numbered repl_numbered 0 prev s.
Proof.
  revert prev s.
  apply (scan_ind M_numbered repl_numbered M_numbered_sound
           (fun prev _ out =>
              scan M_numbered repl_numbered 0 prev out = out)).
  - intros prev. now apply scan_nil, M_numbered_sound.
  - intros prev c s E IH.
    rewrite scan_copy; [now rewrite IH|].
    apply (stable head_numbered M_numbered _ match_at_numbered_line
             head_numbered_split head_numbered_local
             M_numbered repl_numbered M_numbered_sound M_numbered_anchored).
    exact E.
  - intros prev matched cs rest E _ IH.
    destruct (rematch head_numbered M_numbered _ match_at_numbered_line
                head_numbered_split head_numbered_local
                repl_numbered prev matched cs rest
                repl_numbered_caps E) as [E' Hp].
    rewrite (scan_match M_numbered repl_numbered M_numbered_sound _ _ _ _ E').
    now rewrite Hp, IH.
Qed.

(** C6. Steps 4 and 5 of the formatter are idempotent: for every string,
    rewriting the bullet items and then the numbered items a second time
    gives the same string as doing it once. *)
Theorem list_normalization_idempotent (s : jsstring) :
  normalize_numbered (normalize_bullets
    (normalize_numbered (normalize_bullets s)))
  = normalize_numbered (normalize_bullets s).
Proof.
  unfold normalize_numbered, normalize_bullets, replace.
  fold M_bullet M_numbered repl_bullet repl_numbered.
  rewrite (scan_no_match M_bullet repl_bullet M_bullet_sound None
             (scan M_numbered repl_numbered 0 None
                (scan M_bullet repl_bullet 0 None s))).
  - apply numbered_idempotent.
  - apply bullets_stay_normal, bullets_normal_form.
Qed.

(* ------------------------------------------------------------------ *)
(** ** Blank-line collapse *)

Lemma match_at_blank_lines prev s :
  M_blank prev s =
    if 3 <=? length (take_while is_LF s)
    then Some (take_while is_LF s, [])
    else None.
Proof.
  unfold M_blank, match_at, re_blank_lines. cbn [map atom_of].
  rewrite exec_AtLeast.
  destruct (3 <=? length (take_while is_LF s)) eqn:E.
  - apply Nat.leb_le in E.
    rewrite (greedy_longest is_LF _ 3 prev s []); [|exact E | reflexivity].
    cbn. now rewrite app_nil_r.
  - apply Nat.leb_gt in E. now rewrite greedy_short.
Qed.

Lemma M_blank_sound : sound M_blank.
Proof.
  intros prev s matched caps. rewrite match_at_blank_lines.
  destruct (3 <=? length (take_while is_LF s)) eqn:E; [|discriminate].
  apply Nat.leb_le in E. intros H. injection H as <- <-. split.
  - destruct (take_while is_LF s); [simpl in E; lia | discriminate].
  - exists (drop_while is_LF s). symmetry. apply take_drop_while.
Qed.

Lemma repl_blank_eq caps : repl_blank caps = [LF; LF].
Proof. reflexivity. Qed.

Lemma is_LF_eq c : is_LF c = true <-> c = LF.
Proof. unfold is_LF, LF. apply N.eqb_eq. Qed.

Lemma blank_run_cons c s :
  has_blank_run (c :: s) ->
  (c = LF /\ exists b, s = LF :: LF :: b) \/ has_blank_run s.
Proof.
  intros (a & b & H). destruct a as [|c' a].
  - injection H as -> ->. left. split; [reflexivity | now exists b].
  - injection H as -> ->. right. now exists a, b.
Qed.


Lemma M_blank_none_lead prev s : M_blank prev s = None -> lead s < 3.
Proof.
  rewrite match_at_blank_lines. unfold lead.
  destruct (3 <=? length (take_while is_LF s)) eqn:E; [discriminate|].
  intros _. now apply Nat.leb_gt.
Qed.

Lemma collapse_invariant prev s :
  ~ has_blank_run (scan M_blank repl_blank 0 prev s) /\
  lead (scan M_blank repl_blank 0 prev s) <= lead s.
Proof.
  revert prev s.
  apply (scan_ind M_blank repl_blank M_blank_sound
           (fun _ s out => ~ has_blank_run out /\ lead out <= lead s)).
  - intros _. split; [|reflexivity].
    intros (a & b & H). destruct a; discriminate.
  - intros prev c s E [IH1 IH2]. apply M_blank_none_lead in E.
    unfold lead in *. simpl in *. split.
    + intros H. apply blank_run_cons in H as [[-> [b Hb]] | H]; [|tauto].
      rewrite Hb in IH2. simpl in *. lia.
    + destruct (is_LF c); simpl; lia.
  - intros prev matched caps rest E _ [IH1 IH2].
    pose proof E as E'. rewrite match_at_blank_lines in E'.
    destruct (3 <=? length (take_while is_LF (matched ++ rest))) eqn:E3;
      [|discriminate].
    apply Nat.leb_le in E3. injection E' as Hm _.
    assert (Hrest : lead rest = 0).
    { pose proof (take_drop_while is_LF (matched ++ rest)) as Hs.
      rewrite Hm in Hs. apply app_inv_head in Hs. unfold lead.
      destruct rest as [|r rest']; [reflexivity|].
      apply drop_while_head in Hs. simpl. now rewrite Hs. }
    rewrite repl_blank_eq. split.
    + intros H. simpl in H.
      apply blank_run_cons in H as [[_ [b Hb]] | H].
      { injection Hb as Hb. rewrite Hb in IH2. unfold lead in IH2, Hrest.
        simpl in *. lia. }
      apply blank_run_cons in H as [[_ [b Hb]] | H]; [|tauto].
      rewrite Hb in IH2. unfold lead in IH2, Hrest. simpl in *. lia.
    + unfold lead in *. rewrite Hm in E3 |- *. simpl. lia.
Qed.

Lemma trimStart_suffix s : exists a, s = a ++ trimStart s.
Proof.
  induction s as [|c s [a IH]]; simpl.
  - now exists [].
  - destruct (is_space c).
    + exists (c :: a). simpl. now rewrite <- IH.
    + now exists [].
Qed.

Lemma trim_substring s : exists a b, s = a ++ trim s ++ b.
Proof.
  unfold trim, trimEnd.
  destruct (trimStart_suffix s) as [a Ha].
  destruct (trimStart_suffix (rev (trimStart s))) as [b Hb].
  exists a, (rev b).
  rewrite <- rev_app_distr, <- Hb, rev_involutive. exact Ha.
Qed.

Lemma take_while_app_local p t rest :
  forallb p t = false -> take_while p (t ++ rest) = take_while p t.
Proof.
  induction t as [|c t IH]; simpl; [discriminate|].
  destruct (p c); simpl; [|reflexivity].
  intros H. now rewrite IH.
Qed.



(* ------------------------------------------------------------------ *)
(** ** Paragraph classification *)

Lemma search_bol_false re c s :
  search false (Plain Bol :: re) (Some c) s = None.
Proof.
  revert c. induction s as [|d s IH]; intros c; simpl; [reflexivity|].
  apply IH.
Qed.

Lemma matches_bol_false re s :
  matches false (Plain Bol :: re) s =
    match match_at false (Plain Bol :: re) None s with
    | Some _ => true
    | None => false
    end.
Proof.
  unfold matches. destruct s as [|c s]; simpl search.
  - now destruct (match_at false (Plain Bol :: re) None []).
  - destruct (match_at false (Plain Bol :: re) None (c :: s));
      [reflexivity|]. now rewrite search_bol_false.
Qed.

Lemma is_list_glyph_In g : is_list_glyph g = true <-> In g list_glyphs.
Proof.
  unfold list_glyphs. simpl. unfold is_list_glyph, is_bullet.
  bool_to_prop. intuition (subst; auto; try lia).
Qed.

(** [/^[•·▪▸■\-\*]/] matches the texts that start with one of the
    glyphs. *)
Lemma matches_list_glyph t :
  matches false re_list_glyph t = false <->
  (forall g rest, t = g :: rest -> ~ In g list_glyphs).
Proof.
  unfold re_list_glyph. rewrite matches_bol_false.
  unfold match_at. cbn [map atom_of]. rewrite exec_Bol, exec_Class.
  simpl at_bol. cbv iota.
  destruct t as [|g t].
  - simpl. split; [intros _ g rest H; discriminate | reflexivity].
  - destruct (is_list_glyph g) eqn:E; simpl.
    + split; [discriminate|]. intros H. exfalso.
      apply (H g t eq_refl). now apply is_list_glyph_In.
    + split; [|reflexivity]. intros _ g' rest H. injection H as <- <-.
      intros Hin. apply is_list_glyph_In in Hin. congruence.
Qed.

(** [/^\d+\./] matches the texts that start with digits and a period. *)
Lemma matches_numbered_prefix t :
  matches false re_numbered_prefix t = true <->
  exists d D rest,
    forallb is_digit (d :: D) = true /\ t = (d :: D) ++ 46%N :: rest.
Proof.
  unfold re_numbered_prefix. rewrite matches_bol_false.
  unfold match_at. cbn [map atom_of]. rewrite exec_Bol. simpl at_bol.
  cbv iota. rewrite exec_AtLeast, greedy_no_backtrack.
  2:{ intros q c s' Hc. rewrite exec_Class.
      now rewrite (digit_not_period c Hc). }
  pose proof (take_drop_while is_digit t) as Ht.
  pose proof (take_while_all is_digit t) as Hd.
  destruct (take_while is_digit t) as [|d D] eqn:ED.
  - simpl. split; [discriminate|].
    intros (d & D & rest & Hds & ->). simpl in Hds.
    apply andb_true_iff in Hds as [Hd1 _]. simpl in ED.
    rewrite Hd1 in ED. discriminate.
  - cbn [length Nat.leb]. rewrite exec_Class.
    destruct (drop_while is_digit t) as [|dot rest] eqn:Edrop.
    + simpl. split; [discriminate|].
      intros (d' & D' & rest & Hds & Heq). rewrite Heq in Edrop.
      change (d' :: D' ++ 46%N :: rest)
        with ((d' :: D') ++ 46%N :: rest) in Edrop.
      rewrite drop_while_app_stop in Edrop; [discriminate | exact Hds |].
      reflexivity.
    + destruct (is_period dot) eqn:Ep.
      * simpl. split; [intros _ | reflexivity].
        assert (dot = 46%N) as -> by charclass.
        exists d, D, rest. now split.
      * simpl. split; [discriminate|].
        intros (d' & D' & rest' & Hds & Heq). rewrite Heq in Edrop.
        change (d' :: D' ++ 46%N :: rest')
          with ((d' :: D') ++ 46%N :: rest') in Edrop.
        rewrite drop_while_app_stop in Edrop; [| exact Hds | reflexivity].
        injection Edrop as <- _. discriminate.
Qed.

Lemma format_paragraph_cases para idx arr :
  let t := trim para in
  (format_paragraph para idx arr = Ok (lit "## " ++ t) /\
   heading_condition t idx arr) \/
  (format_paragraph para idx arr = Ok t /\ ~ heading_condition t idx arr).
Proof.
  intros t. unfold format_paragraph, heading_condition. fold t.
  destruct (5 <? length t) eqn:E1; simpl.
  2:{ right. split; [reflexivity|]. apply Nat.ltb_ge in E1. lia. }
  destruct (length t <? 60) eqn:E2; simpl.
  2:{ right. split; [reflexivity|]. apply Nat.ltb_ge in E2. lia. }
  destruct (matches false re_numbered_prefix t) eqn:E3; simpl.
  { right. split; [reflexivity|]. intros (_ & _ & H & _). discriminate. }
  destruct (matches false re_list_glyph t) eqn:E4; simpl.
  { right. split; [reflexivity|]. intros (_ & _ & _ & H & _).
    apply matches_list_glyph in H. congruence. }
  pose proof (proj1 (matches_list_glyph t) E4) as E4'.
  apply Nat.ltb_lt in E1. apply Nat.ltb_lt in E2.
  destruct (Z.of_nat idx <? Z.of_nat (length arr) - 1)%Z eqn:E5.
  2:{ right. split; [reflexivity|]. apply Z.ltb_ge in E5. lia. }
  apply Z.ltb_lt in E5.
  destruct (nth_error arr (idx + 1)) as [next|] eqn:E6.
  2:{ apply nth_error_None in E6. lia. }
  simpl. destruct (length t <? length next) eqn:E7.
  - left. apply Nat.ltb_lt in E7. split; [reflexivity|].
    repeat split; try assumption; try lia. now exists next.
  - right. apply Nat.ltb_ge in E7. split; [reflexivity|].
    intros (_ & _ & _ & _ & _ & next' & Hn & Hl).
    injection Hn as <-. lia.
Qed.

Lemma heading_not_plain (t : jsstring) : lit "## " ++ t <> t.
Proof.
  intros H. apply (f_equal (@length _)) in H. simpl in H. lia.
Qed.

Lemma format_paragraph_spec para idx arr :
  exists out,
    format_paragraph para idx arr = Ok out /\
    classified (trim para) out /\
    (out = lit "## " ++ trim para <-> heading_condition (trim para) idx arr).
Proof.
  destruct (format_paragraph_cases para idx arr) as [[E H] | [E H]].
  - exists (lit "## " ++ trim para). split; [exact E|].
    split; [now left | tauto].
  - exists (trim para). split; [exact E|]. split; [now right|].
    split; [|tauto]. intros Heq. symmetry in Heq.
    now apply heading_not_plain in Heq.
Qed.

(** [paragraphs.map] returns, position by position, what the callback
    returns, and never throws. *)
Lemma map_from_spec (arr : list jsstring) idx l :
  exists fps,
    map_from (fun x i => format_paragraph x i arr) idx l = Ok fps /\
    length fps = length l /\
    forall i para,
      nth_error l i = Some para ->
      exists out,
        nth_error fps i = Some out /\
        format_paragraph para (idx + i) arr = Ok out.
Proof.
  revert idx. induction l as [|x l IH]; intros idx.
  - exists []. split; [reflexivity|]. split; [reflexivity|].
    intros [|i] para H; discriminate.
  - destruct (format_paragraph_spec x idx arr) as (y & Hy & _).
    destruct (IH (S idx)) as (ys & Hys & Hlen & Hnth).
    exists (y :: ys). cbn [map_from]. rewrite Hy. cbn [bind].
    rewrite Hys. cbn [bind]. split; [reflexivity|].
    split; [simpl; now rewrite Hlen|].
    intros [|i] para H; simpl in H.
    + injection H as <-. exists y. rewrite Nat.add_0_r. now split.
    + destruct (Hnth i para H) as (out & Ho & Hf).
      exists out. split; [exact Ho|].
      now replace (idx + S i) with (S idx + i) by lia.
Qed.

Lemma array_map_spec arr :
  exists fps,
    array_map format_paragraph arr = Ok fps /\
    length fps = length arr /\
    forall i para,
      nth_error arr i = Some para ->
      exists out,
        nth_error fps i = Some out /\
        format_paragraph para i arr = Ok out.
Proof. exact (map_from_spec arr 0 arr). Qed.

Lemma formatAsMarkdown_eq text :
  exists fps,
    array_map format_paragraph (paragraphs text) = Ok fps /\
    formatAsMarkdown text =
      Ok (trim (collapse_blank_lines (normalize_numbered
            (normalize_bullets (join paragraph_mark fps))))).
Proof.
  destruct (array_map_spec (paragraphs text)) as (fps & E & _).
  exists fps. split; [exact E|]. unfold formatAsMarkdown. now rewrite E.
Qed.

(** C1. In [formatAsMarkdown] the paragraph at position [idx], trimmed
    to [t], comes out of the classification step as ["## " + t] if and
    only if [5 < length t < 60], [t] does not match [/^\d+\./], [t] does
    not start with one of the glyphs • · ▪ ▸ ■ - *, the paragraph is not
    the last one, and the next paragraph of the sequence, untrimmed, is
    longer than [t]; otherwise it comes out as [t].  With a longer
    follower and no list marker, lengths 6 and 59 give a heading; lengths
    5 and 60 never do. *)
Theorem heading_classification (text : jsstring) (idx : nat)
    (para : jsstring) :
  nth_error (paragraphs text) idx = Some para ->
  let t := trim para in
  let arr := paragraphs text in
  exists fps out,
    array_map format_paragraph arr = Ok fps /\
    nth_error fps idx = Some out /\
    classified t out /\
    (out = lit "## " ++ t <-> heading_condition t idx arr) /\
    ((length t = 6 \/ length t = 59) ->
     matches false re_numbered_prefix t = false ->
     (forall g rest, t = g :: rest -> ~ In g list_glyphs) ->
     (exists next,
         nth_error arr (idx + 1) = Some next /\ length t < length next) ->
     out = lit "## " ++ t) /\
    ((length t = 5 \/ length t = 60) -> out = t).
Proof.
  intros Hpara t arr.
  destruct (array_map_spec arr) as (fps & Hfps & _ & Hnth).
  destruct (Hnth idx para Hpara) as (out & Hout & Hf).
  destruct (format_paragraph_spec para idx arr) as (out' & Hf' & Hc & Hiff).
  assert (out' = out) as -> by congruence.
  exists fps, out. fold t in Hc, Hiff.
  split; [exact Hfps|]. split; [exact Hout|]. split; [exact Hc|].
  split; [exact Hiff|]. split.
  - intros Hlen Hnum Hglyph (next & Hnext & Hlonger). apply Hiff.
    unfold heading_condition.
    split; [lia|]. split; [lia|]. split; [exact Hnum|].
    split; [exact Hglyph|]. split; [|now exists next].
    apply nth_error_Some. congruence.
  - intros Hlen. destruct Hc as [Hc | Hc]; [|exact Hc].
    apply Hiff in Hc. unfold heading_condition in Hc. lia.
Qed.

Lemma heading_classification_witness :
  nth_error (paragraphs (extractPageText {| items := chapter_page |})) 0
    = Some (lit "Chapter One") /\
  exists fps out,
    array_map format_paragraph
      (paragraphs (extractPageText {| items := chapter_page |})) = Ok fps /\
    nth_error fps 0 = Some out /\
    out = lit "## Chapter One".
Proof.
  split; [reflexivity|].
  destruct (heading_classification
              (extractPageText {| items := chapter_page |}) 0
              (lit "Chapter One") eq_refl)
    as (fps & out & Hfps & Hout & _ & _ & Hsix & _).
  exists fps, out. split; [exact Hfps|]. split; [exact Hout|].
  vm_compute in Hfps. injection Hfps as <-.
  vm_compute in Hout. injection Hout as <-. reflexivity.
Defined.

(** A computed difference equal to 5 is not greater than 5. *)
Lemma eq_5_not_above (x : float) :
  (x =? 5)%float = true -> (5 <? x)%float = false.
Proof.
  rewrite FloatAxioms.eqb_spec, FloatAxioms.ltb_spec.
  assert (E5 : Prim2SF 5 = S754_finite false 5629499534213120 (-50))
    by reflexivity.
  rewrite E5.
  destruct (Prim2SF x) as [s|s| |s m e]; try discriminate;
    try (destruct s; discriminate).
  unfold SFeqb, SFltb, SFcompare. destruct s; [discriminate|].
  destruct (Z.compare e (-50)) eqn:Ee; try discriminate.
  apply Z.compare_eq in Ee. subst e.
  destruct (Pos.compare_cont Eq m 5629499534213120) eqn:Em;
    try discriminate.
  apply Pos.compare_eq in Em. subst m. reflexivity.
Qed.

(** A coordinate that is not a number never starts a new line: the
    difference is not a number either, and compares false with 5. *)
Lemma gap_nan_left (y : float) : gap_exceeds (Some nan) (Some y) = false.
Proof.
  unfold gap_exceeds.
  rewrite FloatAxioms.ltb_spec, FloatAxioms.abs_spec, FloatAxioms.sub_spec.
  change (Prim2SF nan) with S754_nan. unfold SF64sub, SFsub.
  destruct (Prim2SF y); reflexivity.
Qed.

Lemma gap_nan_right (y : float) : gap_exceeds (Some y) (Some nan) = false.
Proof.
  unfold gap_exceeds.
  rewrite FloatAxioms.ltb_spec, FloatAxioms.abs_spec, FloatAxioms.sub_spec.
  change (Prim2SF nan) with S754_nan. unfold SF64sub, SFsub.
  destruct (Prim2SF y); reflexivity.
Qed.

(** C2. Two consecutive fragments whose y coordinates differ by exactly
    5 are merged into one line, and a difference greater than 5 starts a
    new line: "A" at 100 and "B" at 105 give the single line "A B", "A"
    at 100 and "B" at 106 give two lines, as does "B" at 105.01.  For
    any two items, a computed difference of exactly 5 gives one line and
    one greater than 5 gives two.  In general an item is appended to the
    current line unless the absolute value of the difference with the
    previous y coordinate, both computed in double precision, exceeds 5,
    in which case the current line is emitted and a new one begins; 5 itself and the double just above it
    fall on the two sides, a difference that rounds to 5 merges (8 and
    the double just below 3), and a coordinate that is undefined or not
    a number never starts a new line. *)
Theorem gap_threshold_boundary :
  extractPageText {| items := [fragment "A" 100; fragment "B" 105] |}
    = lit "A B" ++ paragraph_mark /\
  extractPageText {| items := [fragment "A" 100; fragment "B" 106] |}
    = lit "A" ++ paragraph_mark ++ lit "B" ++ paragraph_mark /\
  extractPageText {| items := [fragment "A" 100; fragment "B" y_105_01] |}
    = lit "A" ++ paragraph_mark ++ lit "B" ++ paragraph_mark /\
  (forall a b : TextItem,
      extractPageText {| items := [a; b] |} =
        if gap_exceeds (y_of b) (y_of a)
        then flush (str b ++ lit " ") (flush (str a ++ lit " ") [])
        else flush ((str a ++ lit " ") ++ (str b ++ lit " ")) []) /\
  (forall (a b : TextItem) (y1 y2 : float),
      y_of a = Some y1 -> y_of b = Some y2 ->
      ((abs (y2 - y1) =? 5)%float = true ->
       extractPageText {| items := [a; b] |} =
         flush ((str a ++ lit " ") ++ (str b ++ lit " ")) []) /\
      ((5 <? abs (y2 - y1))%float = true ->
       extractPageText {| items := [a; b] |} =
         flush (str b ++ lit " ") (flush (str a ++ lit " ") []))) /\
  (forall (st : page_state) (item : TextItem) (ly : option float),
      lastY st = Some ly ->
      item_step st item =
        if gap_exceeds (y_of item) ly
        then {| lastY := Some (y_of item);
                line := str item ++ lit " ";
                pageText := flush (line st) (pageText st) |}
        else {| lastY := Some (y_of item);
                line := line st ++ (str item ++ lit " ");
                pageText := pageText st |}) /\
  (forall y1 y2 : float,
      gap_exceeds (Some y2) (Some y1) = (5 <? abs (y2 - y1))%float) /\
  (forall y : option float,
      gap_exceeds None y = false /\ gap_exceeds y None = false) /\
  (forall y : float,
      gap_exceeds (Some nan) (Some y) = false /\
      gap_exceeds (Some y) (Some nan) = false) /\
  gap_exceeds (Some 5%float) (Some 0%float) = false /\
  gap_exceeds (Some next_after_5) (Some 0%float) = true /\
  (below_3 <? 3)%float = true /\
  gap_exceeds (Some 8%float) (Some below_3) = false /\
  extractPageText {| items := [fragment "A" below_3; fragment "B" 8] |}
    = lit "A B" ++ paragraph_mark.
Proof.
  assert (Htwo : forall a b : TextItem,
             extractPageText {| items := [a; b] |} =
               if gap_exceeds (y_of b) (y_of a)
               then flush (str b ++ lit " ") (flush (str a ++ lit " ") [])
               else flush ((str a ++ lit " ") ++ (str b ++ lit " ")) []).
  { intros a b. unfold extractPageText, y_of. cbn [items fold_left].
    unfold item_step at 2. cbn [lastY line pageText app].
    unfold item_step. cbn [lastY line pageText].
    destruct (gap_exceeds (nth_error (transform b) 5)
                (nth_error (transform a) 5)); reflexivity. }
  split; [reflexivity|]. split; [reflexivity|]. split; [reflexivity|].
  split; [exact Htwo|]. split; [|split; [|split]].
  2:{ intros st item ly H. unfold item_step, y_of. rewrite H.
      destruct (gap_exceeds (nth_error (transform item) 5) ly);
        reflexivity. }
  - intros a b y1 y2 Ha Hb. rewrite Htwo, Ha, Hb. cbn [gap_exceeds].
    split; intros H.
    + now rewrite (eq_5_not_above _ H).
    + now rewrite H.
  - reflexivity.
  - split; [|split].
    + intros [y|]; split; reflexivity.
    + intros y. split; [apply gap_nan_left | apply gap_nan_right].
    + repeat split; vm_compute; reflexivity.
Qed.

Lemma gap_threshold_boundary_witness :
  item_step {| lastY := Some (Some 100%float); line := lit "A ";
               pageText := [] |} (fragment "B" 105)
  = {| lastY := Some (Some 105%float); line := lit "A B "; pageText := [] |} /\
  extractPageText {| items := [fragment "A" 100; fragment "B" 105] |}
  = lit "A B" ++ paragraph_mark /\
  extractPageText {| items := [fragment "A" 100; fragment "B" y_105_01] |}
  = lit "A" ++ paragraph_mark ++ lit "B" ++ paragraph_mark.
Proof.
  split; [|split].
  - exact (proj1 (proj2 (proj2 (proj2 (proj2 (proj2
             gap_threshold_boundary)))))
             {| lastY := Some (Some 100%float); line := lit "A ";
                pageText := [] |}
             (fragment "B" 105) (Some 100%float) eq_refl).
  - exact (proj1 (proj1 (proj2 (proj2 (proj2 (proj2
             gap_threshold_boundary))))
             (fragment "A" 100) (fragment "B" 105) 100%float 105%float
             eq_refl eq_refl) eq_refl).
  - exact (proj2 (proj1 (proj2 (proj2 (proj2 (proj2
             gap_threshold_boundary))))
             (fragment "A" 100) (fragment "B" y_105_01) 100%float y_105_01
             eq_refl eq_refl) eq_refl).
Defined.

(** C4. The page with "Chapter One" at y = 700 followed by the longer
    body line at y = 650 is converted to the heading, a blank line and
    the body line. *)
Theorem chapter_scenario :
  extractTextFromPDF (document [chapter_page]) =
    Ok (lit "## Chapter One" ++ [LF; LF] ++
        lit "This is a longer line of body text that follows the title.").
Proof. vm_compute. reflexivity. Qed.

(* ------------------------------------------------------------------ *)
(** ** Pages *)

Lemma page_loop_join (pdf : PDFDocument) m k acc :
  k + m = S (numPages pdf) ->
  fold_left (page_step pdf) (seq k m) acc =
  acc ++ join page_separator
           (map (fun n => extractPageText (getTextContent pdf n)) (seq k m)).
Proof.
  revert k acc. induction m as [|m IH]; intros k acc Hk.
  - simpl. now rewrite app_nil_r.
  - cbn [seq fold_left map]. rewrite IH by lia. unfold page_step.
    destruct m as [|m].
    + assert (E : (k <? numPages pdf) = false) by (apply Nat.ltb_ge; lia).
      rewrite E. simpl. now rewrite app_nil_r.
    + assert (E : (k <? numPages pdf) = true) by (apply Nat.ltb_lt; lia).
      rewrite E. cbn [seq map join]. now rewrite <- !app_assoc.
Qed.

(** C5. The text handed to the formatter is the pages' texts with the
    separator block between consecutive pages and none after the last
    one; for the pages "Intro" and "Details" the output is
    "Intro\n\n---\n\nDetails", which holds that string, and the rule,
    once and ends with no separator. *)
Theorem page_separator_between_pages :
  (forall pdf : PDFDocument,
      fullText_of pdf =
        join page_separator
          (map (fun n => extractPageText (getTextContent pdf n))
               (seq 1 (numPages pdf)))) /\
  (let pdf := document [[fragment "Intro" 700%float];
                        [fragment "Details" 700%float]] in
   let expected := lit "Intro" ++ page_separator ++ lit "Details" in
   extractPageText (getTextContent pdf 1) = lit "Intro" ++ paragraph_mark /\
   extractPageText (getTextContent pdf 2) = lit "Details" ++ paragraph_mark /\
   fullText_of pdf =
     (lit "Intro" ++ paragraph_mark) ++ page_separator ++
     (lit "Details" ++ paragraph_mark) /\
   extractTextFromPDF pdf = Ok expected /\
   occurrences expected expected = 1 /\
   occurrences (lit "---") expected = 1 /\
   skipn (length expected - length page_separator) expected
     <> page_separator).
Proof.
  split.
  - intros pdf. unfold fullText_of.
    now rewrite (page_loop_join pdf (numPages pdf) 1 []) by lia.
  - cbv zeta. repeat split; try (vm_compute; reflexivity).
    vm_compute. discriminate.
Qed.

(* ------------------------------------------------------------------ *)
(** ** Whitespace-only input *)

Lemma cons_head_Forall (P : jsstring -> Prop) c l :
  (forall x, P x -> P (c :: x)) -> P [c] ->
  Forall P l -> Forall P (cons_head c l).
Proof.
  intros Hc H1 Hl. destruct l as [|h t]; simpl.
  - constructor; [exact H1 | constructor].
  - inversion Hl; subst. constructor; auto.
Qed.

Lemma split_go_forallb p sep skip s :
  forallb p s = true ->
  Forall (fun piece => forallb p piece = true) (split_go sep skip s).
Proof.
  revert skip. induction s as [|c s IH]; intros skip H.
  - simpl. constructor; [reflexivity | constructor].
  - simpl in H. apply andb_true_iff in H as [Hc H]. cbn [split_go].
    destruct skip as [|k]; [|now apply IH].
    destruct (starts_with sep (c :: s)).
    + constructor; [reflexivity | now apply IH].
    + apply cons_head_Forall; [| simpl; now rewrite Hc | now apply IH].
      intros x Hx. simpl. now rewrite Hc.
Qed.

Lemma trimStart_all_space s : forallb is_space s = true -> trimStart s = [].
Proof.
  induction s as [|c s IH]; simpl; [reflexivity|].
  intros H. apply andb_true_iff in H as [-> H]. now apply IH.
Qed.

Lemma trim_all_space s : forallb is_space s = true -> trim s = [].
Proof.
  intros H. unfold trim. now rewrite (trimStart_all_space s H).
Qed.

Lemma paragraphs_all_space text :
  forallb is_space text = true -> paragraphs text = [].
Proof.
  intros H. unfold paragraphs, split.
  pose proof (split_go_forallb is_space paragraph_mark 0 text H) as Hall.
  induction Hall as [|x l Hx _ IH]; [reflexivity|].
  simpl. now rewrite (trim_all_space x Hx).
Qed.

(** C10. The empty string, and any string made of whitespace only, is
    formatted to the empty string. *)
Theorem whitespace_formats_to_empty (text : jsstring) :
  forallb is_space text = true ->
  formatAsMarkdown [] = Ok [] /\ formatAsMarkdown text = Ok [].
Proof.
  intros H. split; [reflexivity|].
  unfold formatAsMarkdown. now rewrite (paragraphs_all_space text H).
Qed.

Lemma whitespace_formats_to_empty_witness :
  forallb is_space (lit "  " ++ [LF; LF; 9%N; 0xA0%N] ++ lit " ") = true /\
  formatAsMarkdown (lit "  " ++ [LF; LF; 9%N; 0xA0%N] ++ lit " ") = Ok [].
Proof.
  split; [reflexivity|].
  apply (whitespace_formats_to_empty
           (lit "  " ++ [LF; LF; 9%N; 0xA0%N] ++ lit " ")).
  reflexivity.
Defined.

(* ------------------------------------------------------------------ *)
(** ** Totality *)

(** C9. Neither function fails: [formatAsMarkdown] returns a string for
    every input string (the only partial operation, the length of the
    next paragraph, is read under the guard [idx < arr.length - 1]), the
    whole conversion returns for every document whose provider returns,
    and [extractPageText], which has no partial operation, returns the
    empty string for a page without items. *)
Theorem conversion_never_throws :
  (forall text : jsstring, exists md, formatAsMarkdown text = Ok md) /\
  (forall para idx arr, exists out, format_paragraph para idx arr = Ok out) /\
  (forall pdf : PDFDocument, exists md, extractTextFromPDF pdf = Ok md) /\
  extractPageText {| items := [] |} = [] /\
  (forall pdf : PDFDocument,
      numPages pdf = 1 -> items (getTextContent pdf 1) = [] ->
      extractTextFromPDF pdf = Ok []).
Proof.
  assert (Htotal : forall text, exists md, formatAsMarkdown text = Ok md).
  { intros text. destruct (formatAsMarkdown_eq text) as (fps & _ & E).
    eexists. exact E. }
  split; [exact Htotal|]. split.
  { intros para idx arr.
    destruct (format_paragraph_spec para idx arr) as (out & E & _).
    now exists out. }
  split; [intros pdf; apply Htotal|]. split; [reflexivity|].
  intros pdf Hn Hitems. unfold extractTextFromPDF, fullText_of.
  rewrite Hn. cbn [seq fold_left]. unfold page_step, extractPageText.
  rewrite Hitems, Hn. reflexivity.
Qed.

Lemma conversion_never_throws_witness :
  extractTextFromPDF (document [[]]) = Ok [].
Proof.
  apply (proj2 (proj2 (proj2 (proj2 conversion_never_throws)))
           (document [[]])); reflexivity.
Defined.

(* ------------------------------------------------------------------ *)
(** ** Bullet items in context *)

Lemma text_after_spaces_then w y Z :
  forallb is_space w = true -> is_space y = false ->
  text_after_spaces (w ++ y :: Z) = Some (w, take_while any_char (y :: Z)).
Proof.
  intros Hw Hy. induction w as [|c w IH].
  - cbn [app text_after_spaces]. rewrite Hy.
    now rewrite (not_space_any y Hy).
  - simpl in Hw. apply andb_true_iff in Hw as [Hc Hw].
    cbn [app text_after_spaces]. rewrite Hc, (IH Hw). reflexivity.
Qed.

Lemma ends_line_has_lt s :
  s <> [] -> ends_line s = true -> forallb any_char s = false.
Proof.
  induction s as [|c s IH]; [congruence|]. intros _ H.
  cbn [forallb]. destruct s as [|d s].
  - simpl in H. unfold any_char. now rewrite H.
  - rewrite IH; [apply andb_false_r | discriminate | exact H].
Qed.

Lemma ends_line_suffix u t :
  t <> [] -> ends_line (u ++ t) = true -> ends_line t = true.
Proof.
  intros Ht. induction u as [|c u IH]; [trivial|].
  cbn [app ends_line].
  destruct (u ++ t) eqn:E; [|exact IH].
  destruct u; [simpl in E; congruence | discriminate].
Qed.

Lemma ends_line_prev p pre :
  pre <> [] -> ends_line pre = true ->
  at_bol true (prev_after p pre) = true.
Proof.
  revert p. induction pre as [|c pre IH]; intros p Hne H; [congruence|].
  rewrite prev_after_cons. cbn [ends_line] in H.
  destruct pre as [|d pre]; [exact H|].
  apply IH; [discriminate | exact H].
Qed.

Lemma ends_line_at_bol pre :
  ends_line pre = true -> at_bol true (prev_after None pre) = true.
Proof.
  destruct pre as [|c pre]; [reflexivity|].
  apply ends_line_prev. discriminate.
Qed.

Lemma text_after_spaces_local s rest :
  forallb is_space s = false -> ends_line s = true ->
  text_after_spaces (s ++ rest) = text_after_spaces s.
Proof.
  induction s as [|c s IH]; [discriminate|]. intros Hs He.
  assert (Htake : take_while any_char ((c :: s) ++ rest)
                  = take_while any_char (c :: s)).
  { apply take_while_app_local, ends_line_has_lt; [discriminate | exact He]. }
  cbn [app text_after_spaces].
  change (c :: s ++ rest) with ((c :: s) ++ rest). rewrite Htake.
  destruct (is_space c) eqn:Ec; [|reflexivity].
  simpl in Hs. rewrite Ec in Hs. simpl in Hs.
  rewrite IH; [reflexivity | exact Hs |].
  destruct s as [|d s]; [discriminate | exact He].
Qed.


(* ------------------------------------------------------------------ *)
(** ** Order of the text *)

Lemma visible_app a b : visible (a ++ b) = visible a ++ visible b.
Proof. apply filter_app. Qed.

Lemma visible_all_space s : forallb is_space s = true -> visible s = [].
Proof.
  induction s as [|c s IH]; simpl; [reflexivity|].
  intros H. apply andb_true_iff in H as [-> H]. now apply IH.
Qed.

Lemma visible_trimStart s : visible (trimStart s) = visible s.
Proof.
  induction s as [|c s IH]; simpl; [reflexivity|].
  destruct (is_space c) eqn:E; simpl; [exact IH | now rewrite E].
Qed.

Lemma visible_rev s : visible (rev s) = rev (visible s).
Proof.
  induction s as [|c s IH]; simpl; [reflexivity|].
  rewrite visible_app, IH. simpl.
  destruct (is_space c); simpl; [now rewrite app_nil_r | reflexivity].
Qed.

Lemma visible_trim s : visible (trim s) = visible s.
Proof.
  unfold trim, trimEnd.
  now rewrite visible_rev, visible_trimStart, visible_rev, rev_involutive,
    visible_trimStart.
Qed.

Lemma visible_flush line pageText :
  visible (flush line pageText) = visible pageText ++ visible line.
Proof.
  unfold flush. destruct (trim line) eqn:E; simpl truthy; cbv iota.
  - rewrite <- (visible_trim line), E. simpl. now rewrite app_nil_r.
  - rewrite <- E, !visible_app, visible_trim. simpl.
    now rewrite app_nil_r.
Qed.

Lemma item_step_visible st item :
  visible (pageText (item_step st item)) ++ visible (line (item_step st item))
  = (visible (pageText st) ++ visible (line st)) ++ visible (str item).
Proof.
  unfold item_step. cbn [pageText line].
  destruct (lastY st) as [ly|].
  - destruct (gap_exceeds (nth_error (transform item) 5) ly);
      cbn [pageText line].
    + rewrite visible_flush, !visible_app. simpl.
      now rewrite !app_nil_r.
    + rewrite !visible_app. simpl. now rewrite !app_nil_r, app_assoc.
  - rewrite !visible_app. simpl. now rewrite !app_nil_r, app_assoc.
Qed.

Lemma page_loop_visible l st :
  let st' := fold_left item_step l st in
  visible (pageText st') ++ visible (line st')
  = (visible (pageText st) ++ visible (line st))
      ++ concat (map (fun item => visible (str item)) l).
Proof.
  revert st. induction l as [|item l IH]; intros st; simpl.
  - now rewrite app_nil_r.
  - rewrite IH, item_step_visible. now rewrite <- !app_assoc.
Qed.

Lemma extractPageText_visible tc :
  visible (extractPageText tc) = page_fragments tc.
Proof.
  unfold extractPageText, page_fragments.
  rewrite visible_flush. exact (page_loop_visible (items tc) _).
Qed.

Lemma markup_refl a : markup_of a a.
Proof. induction a; constructor; assumption. Qed.

Lemma markup_app a b a' b' :
  markup_of a b -> markup_of a' b' -> markup_of (a ++ a') (b ++ b').
Proof.
  intros H H'. induction H; simpl; try (constructor; assumption).
  exact H'.
Qed.

Lemma markup_trans b c :
  markup_of b c -> forall a, markup_of a b -> markup_of a c.
Proof.
  induction 1 as [|x b c H2 IH|b c H2 IH|b c H2 IH|g b c Hg H2 IH].
  - trivial.
  - intros a H1. remember (x :: b) as xb eqn:E. revert E.
    induction H1 as [|y a0 b0 H1 _|a0 b0 H1 _|a0 b0 H1 _|g a0 b0 Hg H1 IH1];
      intros E.
    + discriminate.
    + injection E as -> ->. apply markup_keep. now apply IH.
    + injection E as <- ->. apply markup_hash. now apply IH.
    + injection E as <- ->. apply markup_dash. now apply IH.
    + apply markup_drop; [exact Hg | now apply IH1].
  - intros a H1. apply markup_hash. now apply IH.
  - intros a H1. apply markup_dash. now apply IH.
  - intros a H1. remember (g :: b) as gb eqn:E. revert E.
    induction H1
      as [|y a0 b0 H1 _|a0 b0 H1 _|a0 b0 H1 _|g' a0 b0 Hg' H1 IH1];
      intros E.
    + discriminate.
    + injection E as -> ->. apply markup_drop; [exact Hg | now apply IH].
    + injection E as <- ->. discriminate.
    + injection E as <- ->. discriminate.
    + apply markup_drop; [exact Hg' | now apply IH1].
Qed.

Lemma markup_content a b :
  markup_of a b ->
  filter (fun c => negb (is_markup c)) a
  = filter (fun c => negb (is_markup c)) b.
Proof.
  induction 1 as [|x a b H IH|a b H IH|a b H IH|g a b Hg H IH]; simpl.
  - reflexivity.
  - now rewrite IH.
  - exact IH.
  - exact IH.
  - unfold is_markup at 1. rewrite Hg, orb_true_r. exact IH.
Qed.

Lemma starts_with_firstn sep s :
  starts_with sep s = true -> firstn (length sep) s = sep.
Proof.
  revert s. induction sep as [|a sep IH]; intros s H; [reflexivity|].
  destruct s as [|b s]; [discriminate|]. simpl in H.
  apply andb_true_iff in H as [Hab H]. apply N.eqb_eq in Hab. subst b.
  simpl. now rewrite IH.
Qed.

Lemma split_go_nonempty sep skip s : split_go sep skip s <> [].
Proof.
  revert skip. induction s as [|c s IH]; intros skip; simpl.
  - discriminate.
  - destruct skip as [|k]; [|apply IH].
    destruct (starts_with sep (c :: s)); [discriminate|].
    specialize (IH 0). destruct (split_go sep 0 s); [congruence|].
    discriminate.
Qed.

Lemma concat_cons_head c l : l <> [] -> concat (cons_head c l) = c :: concat l.
Proof. destruct l; [congruence | reflexivity]. Qed.

(** Splitting on a separator made of whitespace loses no visible text. *)
Lemma split_go_visible sep s skip :
  sep <> [] -> forallb is_space sep = true ->
  forallb is_space (firstn skip s) = true ->
  visible (concat (split_go sep skip s)) = visible s.
Proof.
  intros Hne Hsep. revert skip.
  induction s as [|c s IH]; intros skip Hskip; [reflexivity|].
  cbn [split_go]. destruct skip as [|k].
  - destruct (starts_with sep (c :: s)) eqn:E.
    + pose proof (starts_with_firstn _ _ E) as Hf.
      destruct sep as [|d sep]; [congruence|].
      simpl in Hf. injection Hf as -> Hf.
      simpl in Hsep. apply andb_true_iff in Hsep as [Hc Hsep'].
      cbn [concat app length Nat.sub]. rewrite Nat.sub_0_r.
      rewrite IH by now rewrite Hf.
      simpl. now rewrite Hc.
    + rewrite concat_cons_head by apply split_go_nonempty.
      simpl. rewrite (IH 0 eq_refl). reflexivity.
  - simpl in Hskip. apply andb_true_iff in Hskip as [Hc Hskip].
    rewrite (IH k Hskip). simpl. now rewrite Hc.
Qed.

Lemma concat_visible l :
  visible (concat l) = concat (map visible l).
Proof.
  induction l as [|x l IH]; simpl; [reflexivity|].
  now rewrite visible_app, IH.
Qed.

Lemma paragraphs_visible text :
  concat (map visible (paragraphs text)) = visible text.
Proof.
  unfold paragraphs, split.
  rewrite <- (split_go_visible paragraph_mark text 0);
    [| discriminate | reflexivity | reflexivity].
  rewrite concat_visible.
  induction (split_go paragraph_mark 0 text) as [|x l IH]; [reflexivity|].
  simpl. destruct (trim x) eqn:E; simpl.
  - rewrite <- (visible_trim x), E. exact IH.
  - now rewrite IH.
Qed.

Lemma join_visible sep l :
  forallb is_space sep = true ->
  visible (join sep l) = concat (map visible l).
Proof.
  intros Hsep. induction l as [|x l IH]; [reflexivity|].
  cbn [join map concat]. destruct l as [|y l].
  - simpl. now rewrite app_nil_r.
  - rewrite !visible_app, (visible_all_space sep Hsep), IH. reflexivity.
Qed.

Lemma classified_markup p out :
  classified (trim p) out -> markup_of (visible p) (visible out).
Proof.
  intros [-> | ->].
  - rewrite visible_app, visible_trim.
    change (visible (lit "## ")) with [35%N; 35%N]. simpl.
    apply markup_hash, markup_hash, markup_refl.
  - rewrite visible_trim. apply markup_refl.
Qed.

Lemma map_from_classified (arr : list jsstring) idx l :
  exists fps,
    map_from (fun x i => format_paragraph x i arr) idx l = Ok fps /\
    Forall2 (fun p out => classified (trim p) out) l fps.
Proof.
  revert idx. induction l as [|x l IH]; intros idx.
  - exists []. split; [reflexivity | constructor].
  - destruct (format_paragraph_spec x idx arr) as (y & Hy & Hc & _).
    destruct (IH (S idx)) as (ys & Hys & Hall).
    exists (y :: ys). cbn [map_from]. rewrite Hy. cbn [bind].
    rewrite Hys. cbn [bind]. split; [reflexivity|].
    constructor; assumption.
Qed.

Lemma classified_all_markup l fps :
  Forall2 (fun p out => classified (trim p) out) l fps ->
  markup_of (concat (map visible l)) (concat (map visible fps)).
Proof.
  induction 1 as [|p out l fps Hc _ IH]; simpl; [constructor|].
  apply markup_app; [now apply classified_markup | exact IH].
Qed.

(** A replacement that only edits markup in every match only edits
    markup in the whole text. *)
Lemma scan_markup M repl :
  sound M ->
  (forall prev s matched caps,
      M prev s = Some (matched, caps) ->
      markup_of (visible matched) (visible (repl caps))) ->
  forall prev s, markup_of (visible s) (visible (scan M repl 0 prev s)).
Proof.
  intros Hs Hm.
  apply (scan_ind M repl Hs
           (fun _ s out => markup_of (visible s) (visible out))).
  - intros _. constructor.
  - intros prev c s _ IH. simpl.
    destruct (is_space c); simpl; [exact IH | now constructor].
  - intros prev matched caps rest E _ IH. rewrite !visible_app.
    apply markup_app; [exact (Hm _ _ _ _ E) | exact IH].
Qed.

Lemma visible_no_space s :
  forallb any_char s = true -> forallb is_bullet s = true -> visible s = s.
Proof.
  induction s as [|c s IH]; simpl; [reflexivity|].
  intros Ha Hb. apply andb_true_iff in Hb as [Hc Hb].
  apply andb_true_iff in Ha as [_ Ha].
  rewrite (bullet_not_space c Hc). simpl. now rewrite IH.
Qed.

Lemma normalize_bullets_markup s :
  markup_of (visible s) (visible (normalize_bullets s)).
Proof.
  unfold normalize_bullets, replace. fold M_bullet repl_bullet.
  apply scan_markup; [exact M_bullet_sound|].
  intros prev t matched caps E.
  apply (M_match_spaces head_bullet M_bullet _ match_at_bullet_line) in E
    as (h & w & cap & s1 & Hh & -> & -> & Hw).
  rewrite repl_bullet_caps, !visible_app, (visible_all_space w Hw).
  unfold head_bullet in Hh. destruct t as [|g t]; [discriminate|].
  destruct (is_bullet g) eqn:Eg; [|discriminate].
  injection Hh as <- _. simpl. rewrite (bullet_not_space g Eg). simpl.
  apply markup_dash, markup_drop; [exact Eg | apply markup_refl].
Qed.

Lemma normalize_numbered_visible s :
  visible (normalize_numbered s) = visible s.
Proof.
  unfold normalize_numbered, replace. fold M_numbered repl_numbered.
  apply scan_filter; [exact M_numbered_sound|].
  intros prev t matched caps E.
  apply (M_match_spaces head_numbered M_numbered _
           match_at_numbered_line) in E
    as (h & w & cap & s1 & Hh & -> & -> & Hw).
  rewrite (repl_numbered_caps _ _ _ cap Hh).
  fold (visible (h ++ lit " " ++ cap)). fold (visible (h ++ w ++ cap)).
  rewrite !visible_app, (visible_all_space w Hw). reflexivity.
Qed.

Lemma collapse_blank_lines_visible s :
  visible (collapse_blank_lines s) = visible s.
Proof.
  unfold collapse_blank_lines, replace. fold M_blank repl_blank.
  apply scan_filter; [exact M_blank_sound|].
  intros prev t matched caps E. rewrite match_at_blank_lines in E.
  destruct (3 <=? length (take_while is_LF t)); [|discriminate].
  injection E as <- _. rewrite repl_blank_eq.
  fold (visible (take_while is_LF t)).
  rewrite (visible_all_space (take_while is_LF t)); [reflexivity|].
  pose proof (take_while_all is_LF t) as H.
  induction (take_while is_LF t) as [|c l IH]; [reflexivity|].
  simpl in H |- *. apply andb_true_iff in H as [Hc H].
  rewrite (lt_is_space c (LF_is_lt c Hc)). now apply IH.
Qed.

Lemma formatAsMarkdown_markup text :
  exists md,
    formatAsMarkdown text = Ok md /\ markup_of (visible text) (visible md).
Proof.
  unfold formatAsMarkdown, array_map.
  destruct (map_from_classified (paragraphs text) 0 (paragraphs text))
    as (fps & E & Hall).
  rewrite E. cbn [bind]. eexists. split; [reflexivity|].
  rewrite visible_trim, collapse_blank_lines_visible,
    normalize_numbered_visible.
  apply (markup_trans _ _ (normalize_bullets_markup _)).
  rewrite join_visible by reflexivity.
  rewrite <- (paragraphs_visible text).
  now apply classified_all_markup.
Qed.

Lemma join_separator_markup l :
  markup_of (concat (map visible l)) (visible (join page_separator l)).
Proof.
  induction l as [|x l IH]; [constructor|].
  cbn [join map concat]. destruct l as [|y l].
  - simpl. rewrite app_nil_r. apply markup_refl.
  - rewrite !visible_app. apply markup_app; [apply markup_refl|].
    change (visible page_separator) with [45%N; 45%N; 45%N]. simpl.
    apply markup_dash, markup_dash, markup_dash. exact IH.
Qed.

Lemma fullText_markup pdf :
  markup_of (document_fragments pdf) (visible (fullText_of pdf)).
Proof.
  unfold fullText_of, document_fragments.
  rewrite (page_loop_join pdf (numPages pdf) 1 []) by lia. cbn [app].
  replace (map (fun n => page_fragments (getTextContent pdf n))
               (seq 1 (numPages pdf)))
    with (map visible
            (map (fun n => extractPageText (getTextContent pdf n))
                 (seq 1 (numPages pdf)))).
  - apply join_separator_markup.
  - rewrite map_map. apply map_ext. intros n.
    apply extractPageText_visible.
Qed.

(** C8. Line reconstruction keeps the visible text of the fragments of a
    page as it is and in order; the whole conversion keeps the visible
    text of the fragments of the document, page after page, in order:
    the output differs from it only by inserted number signs and hyphens
    (heading markers, rules, list markers) and removed bullet glyphs, so
    nothing is reordered, repeated or dropped. *)
Theorem order_preserved :
  (forall tc : TextContent,
      visible (extractPageText tc) = page_fragments tc) /\
  (forall text : jsstring, exists md,
      formatAsMarkdown text = Ok md /\
      markup_of (visible text) (visible md)) /\
  (forall pdf : PDFDocument, exists md,
      extractTextFromPDF pdf = Ok md /\
      markup_of (document_fragments pdf) (visible md) /\
      content md =
        filter (fun c => negb (is_markup c)) (document_fragments pdf)).
Proof.
  split; [exact extractPageText_visible|].
  split; [exact formatAsMarkdown_markup|].
  intros pdf. unfold extractTextFromPDF.
  destruct (formatAsMarkdown_markup (fullText_of pdf)) as (md & E & H).
  exists md. split; [exact E|].
  pose proof (markup_trans _ _ H _ (fullText_markup pdf)) as Hm.
  split; [exact Hm|]. unfold content. symmetry. now apply markup_content.
Qed.

(* ------------------------------------------------------------------ *)
(** ** Newlines between two plain paragraphs *)

Lemma any_char_not_LF c : any_char c = true -> is_LF c = false.
Proof. charclass. Qed.

Lemma starts_with_mark_plain c s :
  is_LF c = false -> starts_with paragraph_mark (c :: s) = false.
Proof.
  intros H. unfold paragraph_mark, LF. cbn [starts_with].
  unfold is_LF in H. rewrite N.eqb_sym in H. now rewrite H.
Qed.



Lemma split_mark r :
  split_go paragraph_mark 0 (LF :: LF :: r) = [] :: split_go paragraph_mark 0 r.
Proof. reflexivity. Qed.

Lemma plain_line_inv s :
  plain_line s = true ->
  exists c s',
    s = c :: s' /\ is_space c = false /\ is_bullet c = false /\
    is_digit c = false /\ forallb any_char s = true /\
    exists s'' d, s = s'' ++ [d] /\ is_space d = false.
Proof.
  unfold plain_line. intros H.
  apply andb_true_iff in H as [H Hlast].
  apply andb_true_iff in H as [Hfirst Hany].
  destruct s as [|c s']; [discriminate|].
  apply andb_true_iff in Hfirst as [Hfirst Hd].
  apply andb_true_iff in Hfirst as [Hs Hb].
  apply negb_true_iff in Hs, Hb, Hd.
  exists c, s'. repeat split; try assumption.
  destruct (rev (c :: s')) as [|d r] eqn:E; [discriminate|].
  apply negb_true_iff in Hlast. exists (rev r), d. split; [|exact Hlast].
  rewrite <- (rev_involutive (c :: s')), E. reflexivity.
Qed.

Lemma trim_id s :
  (exists c s', s = c :: s' /\ is_space c = false) ->
  (exists s'' d, s = s'' ++ [d] /\ is_space d = false) ->
  trim s = s.
Proof.
  intros (c & s' & -> & Hc) (s'' & d & Hs & Hd).
  unfold trim, trimEnd. cbn [trimStart]. rewrite Hc, Hs, rev_app_distr.
  cbn [rev app trimStart]. rewrite Hd.
  change (d :: rev s'') with (rev [d] ++ rev s'').
  now rewrite <- rev_app_distr, rev_involutive.
Qed.

Lemma trim_plain s : plain_line s = true -> trim s = s.
Proof.
  intros H. apply plain_line_inv in H
    as (c & s' & Hs & Hc & _ & _ & _ & Hlast).
  apply trim_id; [now exists c, s' | exact Hlast].
Qed.




Lemma format_last_paragraph a x :
  format_paragraph x 1 [a; x] = Ok (trim x).
Proof.
  unfold format_paragraph. cbn [length].
  change (Z.of_nat 1 <? Z.of_nat 2 - 1)%Z with false.
  now rewrite andb_false_r.
Qed.

Section PlainLines.

Variable head : jsstring -> option (jsstring * jsstring).
Variable M : matcher.
Variable caps : jsstring -> jsstring -> list jsstring.

Hypothesis M_spec : forall prev s,
  M prev s =
    if at_bol true prev then
      option_map (fun hwc => match hwc with
                             | (h, w, cap) => (h ++ w ++ cap, caps h cap)
                             end)
                 (item_match head s)
    else None.

Hypothesis head_split : forall s h s1,
  head s = Some (h, s1) ->
  s = h ++ s1 /\ h <> [] /\ forallb any_char h = true.

Lemma no_match_end prev : no_match M prev [].
Proof.
  split; [|exact I].
  destruct (M prev []) as [[m cs]|] eqn:E; [|reflexivity].
  apply (item_sound head M caps M_spec head_split) in E as [Hne [rest Hr]].
  destruct m; [congruence | discriminate].
Qed.

(** Two lines that do not start with a marker, two newlines between
    them: no position matches. *)
Lemma no_match_two_lines c1 l1 c2 l2 :
  forallb any_char (c1 :: l1) = true ->
  forallb any_char (c2 :: l2) = true ->
  (forall s, head (c1 :: s) = None) ->
  (forall s, head (c2 :: s) = None) ->
  no_match M None ((c1 :: l1) ++ LF :: LF :: c2 :: l2).
Proof.
  intros H1 H2 Hh1 Hh2.
  pose proof (item_anchored head M caps M_spec head_split) as Hanch.
  apply (no_match_replaced M Hanch); [exact H1 | |].
  { apply (M_fails_head head M caps M_spec), Hh1. }
  split; [now apply (anchored_lt M Hanch)|].
  split; [now apply (anchored_lt M Hanch)|].
  rewrite <- (app_nil_r (c2 :: l2)).
  apply (no_match_replaced M Hanch); [exact H2 | |].
  { apply (M_fails_head head M caps M_spec), Hh2. }
  apply no_match_end.
Qed.

End PlainLines.

Lemma no_match_blank_chunk l p X :
  forallb any_char l = true ->
  (forall q, no_match M_blank q X) ->
  no_match M_blank p (l ++ X).
Proof.
  intros Hl HX. revert p. induction l as [|c l IH]; intros p; [apply HX|].
  simpl in Hl. apply andb_true_iff in Hl as [Hc Hl].
  split; [|now apply IH].
  rewrite match_at_blank_lines. cbn [app take_while].
  now rewrite (any_char_not_LF c Hc).
Qed.

Lemma no_match_blank_two_lines l1 c2 l2 :
  forallb any_char l1 = true ->
  forallb any_char (c2 :: l2) = true ->
  no_match M_blank None (l1 ++ LF :: LF :: c2 :: l2).
Proof.
  intros H1 H2. apply no_match_blank_chunk; [exact H1|]. intros q.
  pose proof H2 as H2'. simpl in H2'.
  apply andb_true_iff in H2' as [Hc2 _].
  assert (Hend : forall q', no_match M_blank q' (c2 :: l2)).
  { intros q'. rewrite <- (app_nil_r (c2 :: l2)).
    apply no_match_blank_chunk; [exact H2|].
    intros q''. split; [|exact I]. now rewrite match_at_blank_lines. }
  split.
  { rewrite match_at_blank_lines. cbn [take_while].
    change (is_LF LF) with true. cbv iota.
    now rewrite (any_char_not_LF c2 Hc2). }
  split; [|apply Hend].
  rewrite match_at_blank_lines. cbn [take_while].
  change (is_LF LF) with true. cbv iota.
  now rewrite (any_char_not_LF c2 Hc2).
Qed.

Lemma head_bullet_fails c s : is_bullet c = false -> head_bullet (c :: s) = None.
Proof. intros H. unfold head_bullet. now rewrite H. Qed.

Lemma head_numbered_fails c s :
  is_digit c = false -> head_numbered (c :: s) = None.
Proof. intros H. unfold head_numbered. cbn [take_while]. now rewrite H. Qed.

(** Steps 4 to 7 leave two plain lines separated by two newlines as
    they are, also when the first one has become a heading. *)
Lemma plain_lines_unchanged c1 l1 b :
  is_space c1 = false -> is_bullet c1 = false -> is_digit c1 = false ->
  forallb any_char (c1 :: l1) = true ->
  plain_line b = true ->
  trim (collapse_blank_lines (normalize_numbered (normalize_bullets
    ((c1 :: l1) ++ paragraph_mark ++ b))))
  = (c1 :: l1) ++ paragraph_mark ++ b.
Proof.
  intros Hs1 Hb1 Hd1 Ha1 Hb.
  destruct (plain_line_inv b Hb)
    as (c2 & l2 & -> & Hs2 & Hb2 & Hd2 & Ha2 & (s'' & d & Hlast & Hd)).
  unfold paragraph_mark. cbn [app].
  change (c1 :: l1 ++ LF :: LF :: c2 :: l2)
    with ((c1 :: l1) ++ LF :: LF :: c2 :: l2).
  unfold normalize_bullets, normalize_numbered, collapse_blank_lines, replace.
  fold M_bullet repl_bullet M_numbered repl_numbered M_blank repl_blank.
  rewrite (scan_no_match M_bullet repl_bullet M_bullet_sound).
  2:{ apply (no_match_two_lines head_bullet M_bullet _ match_at_bullet_line
               head_bullet_split); try assumption;
        intros s; now apply head_bullet_fails. }
  rewrite (scan_no_match M_numbered repl_numbered M_numbered_sound).
  2:{ apply (no_match_two_lines head_numbered M_numbered _
               match_at_numbered_line head_numbered_split); try assumption;
        intros s; now apply head_numbered_fails. }
  rewrite (scan_no_match M_blank repl_blank M_blank_sound).
  2:{ now apply no_match_blank_two_lines. }
  apply trim_id.
  - exists c1, (l1 ++ LF :: LF :: c2 :: l2). now split.
  - exists ((c1 :: l1) ++ LF :: LF :: s''), d. split; [|exact Hd].
    rewrite Hlast, <- app_assoc. reflexivity.
Qed.


(* ------------------------------------------------------------------ *)
(** ** Statistics of the text *)

Lemma length_cons_head c l : l <> [] -> length (cons_head c l) = length l.
Proof. destruct l; [congruence | reflexivity]. Qed.

Lemma split_LF_length s :
  length (split_go [LF] 0 s) = S (count_occ N.eq_dec s LF).
Proof.
  induction s as [|c s IH]; [reflexivity|].
  cbn [split_go starts_with length Nat.sub count_occ].
  destruct (N.eq_dec c LF) as [->|Hc].
  - rewrite N.eqb_refl. cbn [andb length]. now rewrite IH.
  - assert (E : (LF =? c)%N = false) by (apply N.eqb_neq; congruence).
    rewrite E. cbn [andb].
    rewrite length_cons_head by apply split_go_nonempty. exact IH.
Qed.

Lemma match_at_spaces prev s :
  M_spaces prev s =
    if 1 <=? length (take_while is_space s)
    then Some (take_while is_space s, [])
    else None.
Proof.
  unfold M_spaces, match_at, re_spaces. cbn [map atom_of].
  rewrite exec_AtLeast.
  destruct (1 <=? length (take_while is_space s)) eqn:E.
  - apply Nat.leb_le in E.
    rewrite (greedy_longest is_space _ 1 prev s []);
      [|exact E | reflexivity].
    cbn. now rewrite app_nil_r.
  - apply Nat.leb_gt in E. now rewrite greedy_short.
Qed.

Lemma split_matches_skip M a rest prev :
  a <> [] ->
  split_matches M (length a) true prev (a ++ rest) =
  split_matches M 0 true (prev_after prev a) rest.
Proof.
  revert prev. induction a as [|c a IH]; intros prev Hne; [congruence|].
  cbn [length app split_matches]. rewrite prev_after_cons.
  destruct a as [|d a]; [reflexivity|]. apply IH. discriminate.
Qed.

Lemma word_runs_spaces b w rest :
  w <> [] -> forallb is_space w = true ->
  word_runs b (w ++ rest) = word_runs false rest.
Proof.
  intros Hne Hw. destruct w as [|c w]; [congruence|]. clear Hne.
  simpl in Hw. apply andb_true_iff in Hw as [Hc Hw]. cbn [app word_runs].
  rewrite Hc. clear c Hc. induction w as [|c w IH]; [reflexivity|].
  simpl in Hw. apply andb_true_iff in Hw as [Hc Hw]. cbn [app word_runs].
  rewrite Hc. now apply IH.
Qed.

Lemma nonempty_cons_head c l :
  l <> [] -> nonempty_pieces (cons_head c l) = S (nonempty_pieces (tl l)).
Proof. destruct l; [congruence | reflexivity]. Qed.

(** The non-empty pieces of a split at runs of whitespace are the runs
    of other code units. *)
Lemma split_matches_runs n :
  forall s, length s <= n ->
  forall fresh prev,
    split_matches M_spaces 0 fresh prev s <> [] /\
    nonempty_pieces (split_matches M_spaces 0 fresh prev s)
      = word_runs false s /\
    nonempty_pieces (tl (split_matches M_spaces 0 fresh prev s))
      = word_runs true s.
Proof.
  induction n as [n IH] using lt_wf_ind. intros s Hn fresh prev.
  destruct s as [|c s]; [repeat split; discriminate|].
  cbn [split_matches word_runs]. rewrite match_at_spaces.
  cbn [take_while]. destruct (is_space c) eqn:Ec.
  - cbn [length Nat.leb app].
    pose proof (take_drop_while is_space s) as Hs.
    pose proof (take_while_all is_space s) as Hw.
    remember (take_while is_space s) as w eqn:Ew.
    remember (drop_while is_space s) as rest eqn:Er.
    assert (Hgo : split_matches M_spaces (length w) true (Some c) s
                  = split_matches M_spaces 0 true
                      (prev_after (Some c) w) rest).
    { rewrite <- Hs. destruct w as [|d w'].
      - reflexivity.
      - apply split_matches_skip. discriminate. }
    rewrite Hgo.
    assert (Hlen : length rest < n).
    { simpl in Hn. rewrite <- Hs, length_app in Hn. lia. }
    destruct (IH (length rest) Hlen rest (le_n _) true
                (prev_after (Some c) w)) as (Hne & H1 & H2).
    assert (Hr : word_runs false s = word_runs false rest).
    { rewrite <- Hs. destruct w as [|d w']; [reflexivity|].
      apply word_runs_spaces; [discriminate | exact Hw]. }
    split; [discriminate|]. cbn [tl]. unfold nonempty_pieces in *.
    cbn [filter length Nat.ltb Nat.leb]. rewrite Hr. now split.
  - cbn [length Nat.leb].
    destruct (IH (length s) ltac:(simpl in Hn; lia) s (le_n _) false
                (Some c)) as (Hne & H1 & H2).
    split.
    { destruct (split_matches M_spaces 0 false (Some c) s);
        [congruence | discriminate]. }
    rewrite (nonempty_cons_head c _ Hne), H2. split; [reflexivity|].
    destruct (split_matches M_spaces 0 false (Some c) s) as [|h t];
      [congruence|]. exact H2.
Qed.

Lemma word_runs_trimStart s :
  word_runs false (trimStart s) = word_runs false s.
Proof.
  induction s as [|c s IH]; [reflexivity|]. cbn [trimStart word_runs].
  destruct (is_space c) eqn:E; [exact IH|]. cbn [word_runs].
  now rewrite E.
Qed.

Lemma word_runs_app_spaces b t w :
  forallb is_space w = true -> word_runs b (t ++ w) = word_runs b t.
Proof.
  intros Hw. revert b. induction t as [|c t IH]; intros b.
  - simpl. destruct w as [|d w]; [reflexivity|].
    rewrite <- (app_nil_r (d :: w)).
    rewrite word_runs_spaces; [reflexivity | discriminate | exact Hw].
  - cbn [app word_runs]. destruct (is_space c); now rewrite IH.
Qed.

Lemma trimStart_spaces s :
  exists a, s = a ++ trimStart s /\ forallb is_space a = true.
Proof.
  induction s as [|c s (a & IH & Ha)]; simpl.
  - now exists [].
  - destruct (is_space c) eqn:E.
    + exists (c :: a). simpl. rewrite E, Ha. split; [now f_equal | reflexivity].
    + now exists [].
Qed.

Lemma word_runs_trim s : word_runs false (trim s) = word_runs false s.
Proof.
  unfold trim, trimEnd.
  destruct (trimStart_spaces (rev (trimStart s))) as (a & Ha & Hsp).
  assert (Hs : trimStart s = rev (trimStart (rev (trimStart s))) ++ rev a).
  { rewrite <- rev_app_distr, <- Ha. now rewrite rev_involutive. }
  rewrite <- (word_runs_trimStart s). rewrite Hs at 2.
  rewrite word_runs_app_spaces; [reflexivity|].
  rewrite forallb_forall in *. intros x Hx. apply Hsp. now apply in_rev.
Qed.

Lemma wordCount_runs s : wordCount s = word_runs false s.
Proof.
  unfold wordCount, split_regex. rewrite <- word_runs_trim.
  destruct (trim s) as [|c t]; [reflexivity|].
  fold M_spaces.
  exact (proj1 (proj2 (split_matches_runs _ (c :: t) (le_n _) true None))).
Qed.

Lemma word_runs_zero b s :
  word_runs b s = 0 ->
  match s with
  | [] => True
  | c :: _ => is_space c = true \/ b = true
  end.
Proof.
  destruct s as [|c s]; [trivial|]. cbn [word_runs].
  destruct (is_space c); [now left|]. destruct b; [now right | discriminate].
Qed.

Lemma word_runs_false_zero s :
  word_runs false s = 0 <-> forallb is_space s = true.
Proof.
  induction s as [|c s IH]; [simpl; tauto|]. cbn [word_runs forallb].
  destruct (is_space c); [exact IH|]. simpl. split; discriminate.
Qed.

Lemma word_runs_app b a c rest :
  is_space c = true ->
  word_runs b (a ++ c :: rest) = word_runs b a + word_runs false rest.
Proof.
  intros Hc. revert b. induction a as [|d a IH]; intros b.
  - cbn [app word_runs]. now rewrite Hc.
  - cbn [app word_runs]. destruct (is_space d); rewrite IH; lia.
Qed.

Lemma word_runs_word s :
  forallb (fun c => negb (is_space c)) s = true -> word_runs true s = 0.
Proof.
  induction s as [|c s IH]; [reflexivity|]. cbn [forallb word_runs].
  intros H. apply andb_true_iff in H as [Hc H].
  apply negb_true_iff in Hc. rewrite Hc. now apply IH.
Qed.

(** X1. The line count shown in the statistics is one more than the
    number of newline characters of the text; the empty text has one
    line. *)
Theorem line_count_counts_newlines (markdown : jsstring) :
  lineCount markdown = S (count_occ N.eq_dec markdown LF).
Proof. apply split_LF_length. Qed.

(** X2. The word count is zero exactly for the texts made of whitespace
    only, the empty text among them. *)
Theorem word_count_zero_iff (markdown : jsstring) :
  wordCount markdown = 0 <-> forallb is_space markdown = true.
Proof. rewrite wordCount_runs. apply word_runs_false_zero. Qed.

(** X3. Words are the maximal runs of code units other than whitespace:
    a text without whitespace that is not empty counts one word, and the
    count of two texts put together with a whitespace code unit between
    them is the sum of their counts. *)
Theorem word_count_of_words :
  (forall w : jsstring,
      w <> [] -> forallb (fun c => negb (is_space c)) w = true ->
      wordCount w = 1) /\
  (forall (a b : jsstring) (c : char),
      is_space c = true ->
      wordCount (a ++ c :: b) = wordCount a + wordCount b).
Proof.
  split.
  - intros w Hne Hw. rewrite wordCount_runs.
    destruct w as [|c w]; [congruence|]. cbn [forallb] in Hw.
    apply andb_true_iff in Hw as [Hc Hw]. apply negb_true_iff in Hc.
    cbn [word_runs]. rewrite Hc, (word_runs_word w Hw). reflexivity.
  - intros a b c Hc. rewrite !wordCount_runs. now apply word_runs_app.
Qed.

Lemma word_count_of_words_witness :
  wordCount (lit "hello") = 1 /\
  wordCount (lit "hello" ++ 9%N :: lit "big world")
    = wordCount (lit "hello") + wordCount (lit "big world").
Proof.
  split.
  - apply (proj1 word_count_of_words); [discriminate | reflexivity].
  - apply (proj2 word_count_of_words). reflexivity.
Defined.

(* ------------------------------------------------------------------ *)
(** ** Numbers with thousands separators *)

Ltac euclid := zify; Z.to_euclidean_division_equations; lia.

Lemma log2_div10 n : (10 <= n)%N -> (N.log2 (n / 10) < N.log2 n)%N.
Proof.
  intros Hn.
  assert (H2 : (0 < n / 2)%N) by euclid.
  assert (Hle : (n / 10 <= n / 2)%N) by euclid.
  pose proof (N.log2_le_mono _ _ Hle) as H1.
  pose proof (N.log2_double _ H2) as Hd.
  assert (H3 : (2 * (n / 2) <= n)%N) by euclid.
  pose proof (N.log2_le_mono _ _ H3) as H4. lia.
Qed.

Lemma decimal_fuel f g n :
  N.to_nat (N.log2 n) < f -> N.to_nat (N.log2 n) < g ->
  decimal f n = decimal g n.
Proof.
  revert g n. induction f as [|f IH]; intros g n Hf Hg; [lia|].
  destruct g as [|g]; [lia|]. cbn [decimal].
  destruct (n <? 10)%N eqn:E; [reflexivity|].
  apply N.ltb_ge in E. pose proof (log2_div10 n E) as Hl.
  rewrite (IH g (n / 10)%N); [reflexivity | lia | lia].
Qed.

Lemma toString_small n : (n < 10)%N -> toString n = [digit n].
Proof.
  intros H. unfold toString. cbn [decimal].
  apply N.ltb_lt in H. now rewrite H.
Qed.

Lemma toString_step n :
  (10 <= n)%N -> toString n = toString (n / 10) ++ [digit (n mod 10)].
Proof.
  intros H. unfold toString at 1. cbn [decimal].
  assert (E : (n <? 10)%N = false) by now apply N.ltb_ge.
  rewrite E. f_equal. pose proof (log2_div10 n H) as Hl.
  apply decimal_fuel; lia.
Qed.

Lemma digit_is_digit d : (d < 10)%N -> is_digit (digit d) = true.
Proof. unfold is_digit, digit. intros H. bool_to_prop. lia. Qed.

Lemma decimal_digits f n : forallb is_digit (decimal f n) = true.
Proof.
  revert n. induction f as [|f IH]; intros n; [reflexivity|].
  cbn [decimal]. destruct (n <? 10)%N eqn:E.
  - apply N.ltb_lt in E. simpl. now rewrite digit_is_digit.
  - rewrite forallb_app, IH. simpl.
    rewrite digit_is_digit; [reflexivity|].
    apply N.mod_lt. discriminate.
Qed.

Lemma toString_thousands q r :
  (0 < q)%N -> (r < 1000)%N ->
  toString (1000 * q + r) = toString q ++ three_digits r.
Proof.
  intros Hq Hr.
  rewrite (toString_step (1000 * q + r)) by lia.
  replace ((1000 * q + r) / 10)%N with (100 * q + r / 10)%N by euclid.
  replace ((1000 * q + r) mod 10)%N with (r mod 10)%N by euclid.
  rewrite (toString_step (100 * q + r / 10)) by euclid.
  replace ((100 * q + r / 10) / 10)%N with (10 * q + r / 100)%N by euclid.
  replace ((100 * q + r / 10) mod 10)%N with ((r / 10) mod 10)%N
    by euclid.
  rewrite (toString_step (10 * q + r / 100)) by euclid.
  replace ((10 * q + r / 100) / 10)%N with q by euclid.
  replace ((10 * q + r / 100) mod 10)%N with (r / 100)%N by euclid.
  unfold three_digits. now rewrite <- !app_assoc.
Qed.

Lemma toString_length_small n :
  (n < 1000)%N -> length (toString n) <= 3.
Proof.
  intros H. destruct (N.lt_ge_cases n 10) as [H1|H1].
  { rewrite toString_small by exact H1. simpl. lia. }
  rewrite toString_step, length_app by exact H1.
  destruct (N.lt_ge_cases (n / 10) 10) as [H2|H2].
  { rewrite toString_small by exact H2. simpl. lia. }
  rewrite toString_step, length_app by exact H2.
  rewrite toString_small by euclid. simpl. lia.
Qed.

(** On digits the lookahead holds where a positive multiple of three
    digits follows. *)
Lemma digit_groups_digits n :
  forall s, length s <= n -> forallb is_digit s = true ->
  match digit_groups s with
  | Some _ => s <> [] /\ length s mod 3 = 0
  | None => s = [] \/ length s mod 3 <> 0
  end.
Proof.
  induction n as [n IH] using lt_wf_ind. intros s Hn Hs.
  destruct s as [|a [|b [|c s']]].
  - now left.
  - right. discriminate.
  - right. discriminate.
  - cbn [forallb] in Hs.
    apply andb_true_iff in Hs as [Ha Hs].
    apply andb_true_iff in Hs as [Hb Hs].
    apply andb_true_iff in Hs as [Hc Hs].
    cbn [digit_groups]. rewrite Ha, Hb, Hc. cbn [andb].
    assert (Hlen : length (a :: b :: c :: s') = 3 + length s')
      by reflexivity.
    assert (Hmod : length (a :: b :: c :: s') mod 3 = length s' mod 3).
    { rewrite Hlen. replace (3 + length s') with (length s' + 1 * 3) by lia.
      now rewrite Nat.Div0.mod_add. }
    pose proof (IH (length s') ltac:(simpl in Hn; lia) s' (le_n _) Hs) as H.
    destruct (digit_groups s') as [g|].
    + split; [discriminate|]. rewrite Hmod. tauto.
    + destruct s' as [|d s''].
      * split; [discriminate | reflexivity].
      * cbn [forallb] in Hs. apply andb_true_iff in Hs as [Hd _].
        rewrite Hd. right. rewrite Hmod.
        destruct H as [H|H]; [discriminate | exact H].
Qed.

Lemma is_digit_word c : is_digit c = true -> is_word_char c = true.
Proof. intros H. unfold is_word_char. now rewrite H. Qed.

Lemma scan_thousands_digits prev s :
  forallb is_digit s = true ->
  scan M_thousands (expand [Lit (lit ",")]) 0 prev s
  = grouped (word_at prev) s.
Proof.
  revert prev. induction s as [|c s IH]; intros prev Hs.
  - cbn [scan]. unfold M_thousands. cbn [digit_groups].
    now destruct (not_word_boundary prev []).
  - pose proof Hs as Hall. cbn [forallb] in Hs.
    apply andb_true_iff in Hs as [Hc Hs].
    cbn [scan grouped]. rewrite (IH (Some c) Hs).
    cbn [word_at]. rewrite (is_digit_word c Hc).
    unfold M_thousands, not_word_boundary. cbn [hd_error word_at].
    rewrite (is_digit_word c Hc).
    pose proof (digit_groups_digits _ (c :: s) (le_n _) Hall) as H.
    destruct (word_at prev); cbn [Bool.eqb andb].
    + destruct (digit_groups (c :: s)) as [g|].
      * destruct H as [_ H]. apply Nat.eqb_eq in H. rewrite H.
        reflexivity.
      * destruct H as [H|H]; [discriminate|].
        apply Nat.eqb_neq in H. rewrite H. reflexivity.
    + reflexivity.
Qed.

Lemma formatNumber_grouped n : formatNumber n = grouped false (toString n).
Proof.
  unfold formatNumber.
  now rewrite scan_thousands_digits by apply decimal_digits.
Qed.

Lemma grouped_without_commas b s :
  forallb is_digit s = true ->
  filter (fun c => negb (c =? 44)%N) (grouped b s) = s.
Proof.
  revert b. induction s as [|c s IH]; intros b Hs; [reflexivity|].
  cbn [forallb] in Hs. apply andb_true_iff in Hs as [Hc Hs].
  cbn [grouped]. rewrite filter_app.
  assert (E : (c =? 44)%N = false) by charclass.
  cbn [filter]. rewrite E, (IH true Hs). cbn [negb].
  now destruct (b && (length (c :: s) mod 3 =? 0)).
Qed.

Lemma grouped_short b s :
  length s < 3 -> grouped b s = s.
Proof.
  revert b. induction s as [|c s IH]; intros b H; [reflexivity|].
  cbn [grouped]. rewrite (IH true) by (simpl in H; lia).
  assert (E : (length (c :: s) mod 3 =? 0) = false).
  { apply Nat.eqb_neq. rewrite Nat.mod_small by exact H. discriminate. }
  now rewrite E, andb_false_r.
Qed.

Lemma grouped_last_three b ds x y z :
  grouped b (ds ++ [x; y; z]) =
  grouped b ds ++
  (if b || (0 <? length ds) then lit "," else []) ++ [x; y; z].
Proof.
  revert b. induction ds as [|c ds IH]; intros b.
  - cbn. now destruct b.
  - cbn [app grouped]. rewrite (IH true). cbn [orb].
    rewrite orb_true_r.
    replace (length (c :: ds ++ [x; y; z]) mod 3)
      with (length (c :: ds) mod 3).
    + now rewrite <- !app_assoc.
    + cbn [length]. rewrite length_app. cbn [length].
      replace (S (length ds + 3)) with (S (length ds) + 1 * 3) by lia.
      now rewrite Nat.Div0.mod_add.
Qed.

(** X4. [formatNumber] only inserts commas: taking them out gives the
    decimal digits of the number back; a number below 1000 is written
    without any. *)
Theorem format_number_inserts_commas (num : N) :
  (num <= max_safe_integer)%N ->
  filter (fun c => negb (c =? 44)%N) (formatNumber num) = toString num /\
  forallb is_digit (toString num) = true /\
  ((num < 1000)%N -> formatNumber num = toString num).
Proof.
  intros _. rewrite formatNumber_grouped.
  pose proof (decimal_digits (S (N.to_nat (N.log2 num))) num) as Hd.
  fold (toString num) in Hd.
  split; [now apply grouped_without_commas|]. split; [exact Hd|].
  intros Hn. pose proof (toString_length_small num Hn) as Hl.
  destruct (toString num) as [|c s]; [reflexivity|].
  cbn [grouped andb app]. rewrite grouped_short; [reflexivity|].
  simpl in Hl. lia.
Qed.

Lemma format_number_inserts_commas_witness :
  filter (fun c => negb (c =? 44)%N) (formatNumber 1234567)
    = toString 1234567 /\
  forallb is_digit (toString 1234567) = true /\
  ((1234567 < 1000)%N -> formatNumber 1234567 = toString 1234567).
Proof.
  apply (format_number_inserts_commas 1234567). vm_compute. discriminate.
Defined.

(** X5. [formatNumber] groups the digits by three from the right: a
    number of a thousand or more is written as its thousands, a comma
    and its last three digits. *)
Theorem format_number_groups_thousands (q r : N) :
  (0 < q)%N -> (r < 1000)%N -> (1000 * q + r <= max_safe_integer)%N ->
  formatNumber (1000 * q + r)
  = formatNumber q ++ lit "," ++ three_digits r.
Proof.
  intros Hq Hr _. rewrite !formatNumber_grouped.
  rewrite (toString_thousands q r Hq Hr). unfold three_digits.
  rewrite grouped_last_three. cbn [orb].
  destruct (toString q) as [|c s] eqn:E; [|reflexivity].
  exfalso. destruct (N.lt_ge_cases q 10) as [H|H].
  - rewrite toString_small in E by exact H. discriminate.
  - rewrite toString_step in E by exact H.
    destruct (toString (q / 10)); discriminate.
Qed.

Lemma format_number_groups_thousands_witness :
  formatNumber (1000 * 1234 + 56)
  = formatNumber 1234 ++ lit "," ++ three_digits 56.
Proof.
  apply (format_number_groups_thousands 1234 56).
  - reflexivity.
  - reflexivity.
  - vm_compute. discriminate.
Defined.

(* ------------------------------------------------------------------ *)
(** ** File names *)

Lemma replace_string_absent pat repl s :
  occurrences pat s = 0 -> replace_string pat repl s = s.
Proof.
  induction s as [|c s IH]; cbn [occurrences replace_string].
  - destruct (starts_with pat []); [discriminate | reflexivity].
  - destruct (starts_with pat (c :: s)); [discriminate|].
    intros H. now rewrite IH.
Qed.

(** An occurrence of ".pdf" cannot start before another one and reach
    into it. *)
Lemma starts_with_pdf_app x b :
  x <> [] ->
  starts_with (lit ".pdf") (x ++ lit ".pdf" ++ b)
  = starts_with (lit ".pdf") x.
Proof.
  intros Hx.
  change (lit ".pdf") with [46; 112; 100; 102]%N.
  destruct x as [|c1 [|c2 [|c3 [|c4 x]]]]; [congruence| | | |];
    simpl;
    repeat match goal with
           | |- context [N.eqb ?a ?b] => destruct (N.eqb a b)
           end; reflexivity.
Qed.

Lemma replace_string_first_pdf repl a b :
  occurrences (lit ".pdf") a = 0 ->
  replace_string (lit ".pdf") repl (a ++ lit ".pdf" ++ b) = a ++ repl ++ b.
Proof.
  induction a as [|c a IH]; intros H.
  - reflexivity.
  - cbn [occurrences] in H.
    change ((c :: a) ++ lit ".pdf" ++ b) with (c :: a ++ lit ".pdf" ++ b).
    cbn [replace_string].
    change (c :: a ++ lit ".pdf" ++ b) with ((c :: a) ++ lit ".pdf" ++ b).
    rewrite starts_with_pdf_app by discriminate.
    destruct (starts_with (lit ".pdf") (c :: a)); [discriminate|].
    cbn [app]. now rewrite IH.
Qed.

(* ------------------------------------------------------------------ *)
(** ** Numbered items in context *)

(** The scan of a prefix is not affected by what follows when no match
    attempt made inside the prefix depends on it. *)
Lemma scan_app_at M repl pre rest :
  sound M ->
  forall prev,
    (forall u t, pre = u ++ t -> t <> [] ->
                 M (prev_after prev u) (t ++ rest) = M (prev_after prev u) t) ->
    scan M repl 0 prev (pre ++ rest) =
    scan M repl 0 prev pre ++ scan M repl 0 (prev_after prev pre) rest.
Proof.
  intros Hs. remember (length pre) as n eqn:Hn. revert pre Hn.
  induction n as [n IH] using lt_wf_ind. intros pre Hn prev Hloc.
  destruct pre as [|c pre'].
  - now rewrite scan_nil.
  - pose proof (Hloc [] (c :: pre') eq_refl ltac:(discriminate)) as E0.
    cbn [prev_after fold_left] in E0.
    destruct (M prev (c :: pre')) as [[matched caps]|] eqn:E.
    + destruct (Hs _ _ _ _ E) as [Hne [r' Hr]].
      rewrite Hr in E, E0 |- *. rewrite <- app_assoc in E0 |- *.
      rewrite (scan_match M repl Hs _ _ _ _ E0),
        (scan_match M repl Hs _ _ _ _ E).
      rewrite (IH (length r')) with (pre := r'); try reflexivity.
      * now rewrite <- app_assoc, prev_after_app.
      * subst n. rewrite Hr, length_app.
        destruct matched; [congruence | simpl; lia].
      * intros u t Hu Ht. rewrite <- prev_after_app.
        apply (Hloc (matched ++ u)); [|exact Ht].
        now rewrite Hr, Hu, app_assoc.
    + change ((c :: pre') ++ rest) with (c :: pre' ++ rest) in *.
      rewrite (scan_copy M repl _ _ _ E0), (scan_copy M repl _ _ _ E).
      rewrite prev_after_cons. simpl. f_equal.
      apply (IH (length pre')); [subst n; simpl; lia | reflexivity |].
      intros u t Hu Ht. rewrite <- prev_after_cons with (prev := prev).
      apply (Hloc (c :: u)); [|exact Ht]. now rewrite Hu.
Qed.

Lemma drop_while_app_local p t rest :
  forallb p t = false -> drop_while p (t ++ rest) = drop_while p t ++ rest.
Proof.
  induction t as [|c t IH]; simpl; [discriminate|].
  destruct (p c); simpl; [|reflexivity]. exact IH.
Qed.

Lemma ends_line_not_digits t :
  t <> [] -> ends_line t = true -> forallb is_digit t = false.
Proof.
  intros Hne He. destruct (forallb is_digit t) eqn:E; [|reflexivity].
  apply forallb_digit_any in E.
  now rewrite (ends_line_has_lt t Hne He) in E.
Qed.

Lemma no_open_numbered_suffix u p t :
  no_open_numbered (at_bol true p) (u ++ t) = true ->
  no_open_numbered (at_bol true (prev_after p u)) t = true.
Proof.
  revert p. induction u as [|c u IH]; intros p H; [exact H|].
  cbn [app no_open_numbered] in H. apply andb_true_iff in H as [_ H].
  rewrite prev_after_cons. now apply (IH (Some c)).
Qed.

Lemma M_numbered_local t rest p :
  t <> [] -> ends_line t = true ->
  no_open_numbered (at_bol true p) t = true ->
  M_numbered p (t ++ rest) = M_numbered p t.
Proof.
  intros Ht He Hn. unfold M_numbered. rewrite !match_at_numbered_line.
  destruct (at_bol true p); [|reflexivity]. f_equal.
  pose proof (ends_line_not_digits t Ht He) as Hd.
  destruct t as [|c0 t0]; [congruence|].
  cbn [no_open_numbered negb orb] in Hn.
  apply andb_true_iff in Hn as [Hn _].
  remember (c0 :: t0) as t eqn:Et.
  unfold item_match, head_numbered in *.
  rewrite (take_while_app_local is_digit t rest Hd),
    (drop_while_app_local is_digit t rest Hd).
  pose proof (take_drop_while is_digit t) as Hsplit.
  pose proof (take_while_all is_digit t) as Hall.
  destruct (take_while is_digit t) as [|d D]; [reflexivity|].
  destruct (drop_while is_digit t) as [|dot s1] eqn:Edrop.
  { exfalso. rewrite app_nil_r in Hsplit. rewrite <- Hsplit in Hd.
    congruence. }
  cbn [app]. destruct (is_period dot) eqn:Edot; [|reflexivity].
  destruct s1 as [|x s1].
  { exfalso. rewrite <- Hsplit in He.
    assert (Hl : ends_line [dot] = true).
    { apply (ends_line_suffix (d :: D)); [discriminate | exact He]. }
    simpl in Hl. revert Edot Hl. clear. intros. charclass. }
  cbn [app]. destruct (is_space x) eqn:Ex; [|reflexivity].
  simpl in Hn.
  rewrite text_after_spaces_local; [reflexivity | |].
  - now apply negb_true_iff in Hn.
  - apply negb_true_iff in Hn.
    destruct s1 as [|y s1]; [discriminate|].
    rewrite <- Hsplit in He.
    apply (ends_line_suffix ((d :: D) ++ [dot; x]));
      [discriminate | now rewrite <- app_assoc].
Qed.

Lemma M_numbered_at_item prev d D w body post :
  at_bol true prev = true ->
  forallb is_digit (d :: D) = true ->
  w <> [] -> forallb is_space w = true ->
  (exists b0 body', body = b0 :: body' /\ is_space b0 = false) ->
  forallb any_char body = true ->
  line_end post ->
  M_numbered prev (((d :: D) ++ lit "." ++ w ++ body) ++ post)
  = Some ((d :: D) ++ lit "." ++ w ++ body, [d :: D; body]).
Proof.
  intros Hb Hd Hw Hws (b0 & body' & -> & Hb0) Hbody Hpost.
  unfold M_numbered. rewrite match_at_numbered_line, Hb.
  unfold item_match, head_numbered.
  repeat rewrite <- app_assoc.
  rewrite (take_while_app_stop is_digit (d :: D)),
    (drop_while_app_stop is_digit (d :: D)); try exact Hd; try reflexivity.
  cbn [app lit]. change (is_period (N_of_ascii ".")) with true. cbv iota.
  destruct w as [|c w]; [congruence|].
  simpl in Hws. apply andb_true_iff in Hws as [Hc Hws].
  cbn [app]. rewrite Hc.
  rewrite (text_after_spaces_then w b0 (body' ++ post) Hws Hb0).
  change (b0 :: body' ++ post) with ((b0 :: body') ++ post).
  rewrite take_while_app_stop; [|exact Hbody|].
  - unfold option_map. cbv beta iota.
    change (d :: D ++ [N_of_ascii "."]) with ((d :: D) ++ [N_of_ascii "."]).
    rewrite removelast_last.
    repeat rewrite <- app_assoc. reflexivity.
  - destruct post as [|l post]; [exact I|]. simpl in Hpost.
    unfold any_char. now rewrite Hpost.
Qed.

(** X8. Step 5 rewrites a line made of a numeral, a period, whitespace
    and text to the numeral, a period, one space and the text, when no
    numeral and period at the start of an earlier line has only
    whitespace after it; the text around the line is rewritten as it
    would be alone. *)
Theorem numbered_line_rewritten (pre : jsstring) (d : char)
    (D w body post : jsstring) :
  forallb is_digit (d :: D) = true ->
  w <> [] -> forallb is_space w = true ->
  (exists b0 body', body = b0 :: body' /\ is_space b0 = false) ->
  forallb any_char body = true ->
  line_end post ->
  ends_line pre = true -> no_open_numbered true pre = true ->
  normalize_numbered (pre ++ ((d :: D) ++ lit "." ++ w ++ body) ++ post) =
    normalize_numbered pre ++ (d :: D) ++ lit ". " ++ body ++
    match post with
    | [] => []
    | l :: post' => l :: normalize_numbered post'
    end.
Proof.
  intros Hd Hw Hws Hbody Hany Hpost Hpre Hopen.
  unfold normalize_numbered, replace. fold M_numbered repl_numbered.
  rewrite (scan_app_at M_numbered repl_numbered _ _ M_numbered_sound).
  2:{ intros u t Hu Ht. subst pre. apply M_numbered_local; [exact Ht | |].
      - now apply (ends_line_suffix u).
      - now apply no_open_numbered_suffix. }
  f_equal.
  pose proof (M_numbered_at_item (prev_after None pre) d D w body post
                (ends_line_at_bol pre Hpre) Hd Hw Hws Hbody Hany Hpost) as E.
  rewrite (scan_match M_numbered repl_numbered M_numbered_sound _ _ _ _ E).
  unfold repl_numbered at 1, expand. cbn [flat_map Nat.sub nth].
  rewrite app_nil_r. repeat rewrite <- app_assoc. do 3 f_equal.
  destruct post as [|l post]; [now apply scan_nil, M_numbered_sound|].
  simpl in Hpost.
  rewrite scan_copy
    by now apply (anchored_lt M_numbered M_numbered_anchored).
  f_equal. apply scan_prev. unfold M_numbered.
  rewrite !match_at_numbered_line. simpl at_bol. now rewrite Hpost.
Qed.

Lemma numbered_line_rewritten_witness :
  normalize_numbered
    ((lit "Done in 2023." ++ [LF]) ++
     ((N_of_ascii "1" :: lit "2") ++ lit "." ++ lit "    " ++ lit "First")
     ++ [LF]) =
  normalize_numbered (lit "Done in 2023." ++ [LF]) ++
  (N_of_ascii "1" :: lit "2") ++ lit ". " ++ lit "First" ++
  LF :: normalize_numbered [].
Proof.
  apply (numbered_line_rewritten (lit "Done in 2023." ++ [LF])
           (N_of_ascii "1") (lit "2") (lit "    ") (lit "First") [LF]).
  - reflexivity.
  - discriminate.
  - reflexivity.
  - exists (N_of_ascii "F"), (lit "irst"). split; reflexivity.
  - reflexivity.
  - reflexivity.
  - reflexivity.
  - reflexivity.
Defined.

(* ------------------------------------------------------------------ *)
(** ** The lines of a page *)

Lemma flush_app line pageText :
  flush line pageText = pageText ++ flush line [].
Proof.
  unfold flush. destruct (truthy (trim line)); [reflexivity|].
  now rewrite app_nil_r.
Qed.

Lemma line_text_snoc cur item :
  line_text (cur ++ [item]) = line_text cur ++ (str item ++ lit " ").
Proof.
  unfold line_text. rewrite map_app, concat_app. simpl.
  now rewrite app_nil_r.
Qed.

Lemma item_step_line cur last pt item :
  item_step {| lastY := Some (y_of last); line := line_text cur;
               pageText := pt |} item =
  if gap_exceeds (y_of item) (y_of last)
  then {| lastY := Some (y_of item); line := line_text [item];
          pageText := flush (line_text cur) pt |}
  else {| lastY := Some (y_of item); line := line_text (cur ++ [item]);
          pageText := pt |}.
Proof.
  rewrite line_text_snoc.
  replace (line_text [item]) with (str item ++ lit " ")
    by (unfold line_text; simpl; now rewrite app_nil_r).
  unfold item_step. cbn [lastY]. fold (y_of item).
  destruct (gap_exceeds (y_of item) (y_of last)); reflexivity.
Qed.

Lemma page_loop_lines l cur last pt :
  let st := fold_left item_step l
              {| lastY := Some (y_of last); line := line_text cur;
                 pageText := pt |} in
  flush (line st) (pageText st) =
  pt ++ concat (map (fun l => flush (line_text l) []) (lines_from cur last l)).
Proof.
  revert cur last pt. induction l as [|item l IH]; intros cur last pt.
  - simpl. rewrite app_nil_r. apply flush_app.
  - cbn [fold_left lines_from]. rewrite item_step_line.
    destruct (gap_exceeds (y_of item) (y_of last)).
    + cbn [map concat].
      rewrite (IH [item] item), (flush_app (line_text cur) pt).
      now rewrite <- app_assoc.
    + apply (IH (cur ++ [item]) item pt).
Qed.

Lemma extractPageText_lines tc :
  extractPageText tc =
  concat (map (fun l => flush (line_text l) []) (lines_of (items tc))).
Proof.
  unfold extractPageText, lines_of. destruct (items tc) as [|item l].
  - reflexivity.
  - cbn [fold_left].
    replace (item_step {| lastY := None; line := []; pageText := [] |} item)
      with {| lastY := Some (y_of item); line := line_text [item];
              pageText := [] |}.
    + exact (page_loop_lines l [item] item []).
    + unfold item_step, line_text, y_of. cbn [lastY line pageText map concat].
      now rewrite app_nil_r.
Qed.

Lemma emitted_lines (ls : list (list TextItem)) :
  concat (map (fun l => flush (line_text l) []) ls) =
  concat (map (fun t => t ++ paragraph_mark)
              (filter truthy (map (fun l => trim (line_text l)) ls))).
Proof.
  induction ls as [|l ls IH]; [reflexivity|].
  cbn [map concat filter]. unfold flush at 1.
  destruct (truthy (trim (line_text l))); cbn [map concat app];
    now rewrite IH.
Qed.

Lemma lines_from_concat l cur last :
  concat (lines_from cur last l) = cur ++ l.
Proof.
  revert cur last. induction l as [|item l IH]; intros cur last; simpl.
  - reflexivity.
  - destruct (gap_exceeds (y_of item) (y_of last)); simpl; rewrite IH.
    + reflexivity.
    + now rewrite <- app_assoc.
Qed.

Lemma trimStart_shape s :
  trimStart s = [] \/
  exists c s', trimStart s = c :: s' /\ is_space c = false.
Proof.
  induction s as [|c s IH]; simpl; [now left|].
  destruct (is_space c) eqn:E; [exact IH|]. right. now exists c, s.
Qed.

Lemma trimStart_app_keep a c b :
  is_space c = false -> trimStart (a ++ c :: b) = trimStart a ++ c :: b.
Proof.
  intros Hc. induction a as [|x a IH]; simpl.
  - now rewrite Hc.
  - destruct (is_space x); [exact IH | reflexivity].
Qed.

(** A trimmed text is empty or starts and ends with something else than
    whitespace. *)
Lemma trim_shape s :
  trim s = [] \/
  (exists c s', trim s = c :: s' /\ is_space c = false) /\
  (exists s'' d, trim s = s'' ++ [d] /\ is_space d = false).
Proof.
  unfold trim, trimEnd.
  destruct (trimStart_shape s) as [-> | (c & s' & -> & Hc)]; [now left|].
  right. cbn [rev]. rewrite (trimStart_app_keep (rev s') c [] Hc).
  rewrite rev_app_distr. cbn [rev app]. split.
  - now exists c, (rev (trimStart (rev s'))).
  - destruct (trimStart_shape (rev s')) as [-> | (d & t & -> & Hd)].
    + exists [], c. now split.
    + exists (c :: rev t), d. cbn [rev]. now split.
Qed.

Lemma trim_idempotent s : trim (trim s) = trim s.
Proof.
  destruct (trim_shape s) as [-> | [H1 H2]]; [reflexivity|].
  now apply trim_id.
Qed.

(** X9. The text of a page is made of its lines, in order, each trimmed
    and followed by a blank line, the lines made of whitespace only
    being left out; the lines are the maximal runs of items in which no
    item has a y coordinate whose difference with that of the item before
    it, computed in double precision, is more than 5 in absolute value;
    an emitted line is not empty and neither starts nor ends with
    whitespace, and the page gives the empty text exactly when its items
    hold nothing but whitespace. *)
Theorem page_text_by_lines (tc : TextContent) :
  extractPageText tc =
    concat (map (fun t => t ++ paragraph_mark) (page_lines tc)) /\
  concat (lines_of (items tc)) = items tc /\
  Forall (fun t => t <> [] /\ trim t = t) (page_lines tc) /\
  (extractPageText tc = [] <-> page_fragments tc = []).
Proof.
  assert (Hlines : Forall (fun t => t <> [] /\ trim t = t) (page_lines tc)).
  { apply Forall_forall. intros t Ht. unfold page_lines in Ht.
    apply filter_In in Ht as [Hin Htr]. apply in_map_iff in Hin
      as (l & <- & _). split.
    - intros E. now rewrite E in Htr.
    - apply trim_idempotent. }
  assert (Htext : extractPageText tc =
            concat (map (fun t => t ++ paragraph_mark) (page_lines tc))).
  { rewrite extractPageText_lines. apply emitted_lines. }
  split; [exact Htext|]. split.
  { unfold lines_of. destruct (items tc) as [|item l]; [reflexivity|].
    apply lines_from_concat. }
  split; [exact Hlines|]. split.
  - intros E. now rewrite <- extractPageText_visible, E.
  - intros E. rewrite <- extractPageText_visible, Htext in E.
    rewrite Htext.
    destruct (page_lines tc) as [|t ls]; [reflexivity|]. exfalso.
    apply Forall_inv in Hlines as [Hne Ht].
    destruct (trim_shape t) as [E0 | [(c & t' & Hc & Hsp) _]];
      [congruence|].
    rewrite Ht in Hc. subst t. simpl in E. now rewrite Hsp in E.
Qed.

(* ------------------------------------------------------------------ *)
(** ** From lines to paragraphs *)

Lemma split_prefix_no_LF a r :
  no_LF a = true ->
  split_go paragraph_mark 0 (a ++ paragraph_mark ++ r) =
  a :: split_go paragraph_mark 0 r.
Proof.
  intros Ha. induction a as [|c a IH].
  - apply split_mark.
  - simpl in Ha. apply andb_true_iff in Ha as [Hc Ha].
    apply negb_true_iff in Hc. cbn [app split_go].
    change (a ++ LF :: LF :: r) with (a ++ paragraph_mark ++ r).
    rewrite (starts_with_mark_plain c _ Hc), (IH Ha). reflexivity.
Qed.

Lemma paragraphs_line t r :
  no_LF t = true ->
  paragraphs (t ++ paragraph_mark ++ r) =
  (if truthy (trim t) then [t] else []) ++ paragraphs r.
Proof.
  intros Ht. unfold paragraphs, split. rewrite (split_prefix_no_LF t r Ht).
  cbn [filter]. now destruct (truthy (trim t)).
Qed.

Lemma paragraphs_lines ls r :
  Forall (fun t => no_LF t = true /\ t <> [] /\ trim t = t) ls ->
  paragraphs (concat (map (fun t => t ++ paragraph_mark) ls) ++ r) =
  ls ++ paragraphs r.
Proof.
  induction ls as [|t ls IH]; intros H; [reflexivity|].
  apply Forall_cons_iff in H as [(Hn & Hne & Ht) H].
  cbn [map concat]. rewrite <- !app_assoc, (paragraphs_line t _ Hn), Ht.
  destruct t as [|c t]; [congruence|]. cbn [truthy app].
  now rewrite (IH H).
Qed.

Lemma no_LF_app a b : no_LF (a ++ b) = no_LF a && no_LF b.
Proof. apply forallb_app. Qed.

Lemma no_LF_trim s : no_LF s = true -> no_LF (trim s) = true.
Proof.
  intros H. destruct (trim_substring s) as (a & b & Hs).
  rewrite Hs, !no_LF_app in H.
  apply andb_true_iff in H as [_ H]. now apply andb_true_iff in H as [H _].
Qed.

Lemma no_LF_line_text l :
  forallb (fun item => no_LF (str item)) l = true ->
  no_LF (line_text l) = true.
Proof.
  induction l as [|item l IH]; [reflexivity|]. intros H.
  simpl in H. apply andb_true_iff in H as [Hi H].
  unfold line_text. cbn [map concat]. rewrite !no_LF_app, Hi.
  exact (IH H).
Qed.

Lemma page_lines_no_LF tc :
  single_line_items tc = true ->
  Forall (fun t => no_LF t = true /\ t <> [] /\ trim t = t) (page_lines tc).
Proof.
  intros H. apply Forall_forall. intros t Ht. unfold page_lines in Ht.
  apply filter_In in Ht as [Hin Htr].
  apply in_map_iff in Hin as (l & <- & Hl). split; [|split].
  - apply no_LF_trim, no_LF_line_text. apply forallb_forall.
    intros item Hitem. unfold single_line_items in H.
    rewrite forallb_forall in H. apply H.
    assert (Hc : concat (lines_of (items tc)) = items tc).
    { unfold lines_of. destruct (items tc) as [|i0 l0]; [reflexivity|].
      apply lines_from_concat. }
    rewrite <- Hc. apply in_concat. now exists l.
  - intros E. now rewrite E in Htr.
  - apply trim_idempotent.
Qed.

Lemma paragraphs_page tc r :
  single_line_items tc = true ->
  paragraphs (extractPageText tc ++ r) = page_lines tc ++ paragraphs r.
Proof.
  intros H. rewrite extractPageText_lines, emitted_lines.
  apply paragraphs_lines. now apply page_lines_no_LF.
Qed.

Lemma paragraphs_separator r :
  paragraphs (page_separator ++ r) = lit "---" :: paragraphs r.
Proof.
  unfold page_separator. rewrite <- !app_assoc.
  change ([LF; LF] ++ lit "---" ++ [LF; LF] ++ r)
    with ([] ++ paragraph_mark ++ lit "---" ++ paragraph_mark ++ r).
  rewrite (paragraphs_line [] _ eq_refl).
  now rewrite (paragraphs_line (lit "---") r eq_refl).
Qed.

Lemma paragraphs_pages (tcs : list TextContent) :
  forallb single_line_items tcs = true ->
  paragraphs (join page_separator (map extractPageText tcs)) =
  with_rules (map page_lines tcs).
Proof.
  induction tcs as [|tc tcs IH]; [reflexivity|]. intros H.
  simpl in H. apply andb_true_iff in H as [Htc H].
  destruct tcs as [|tc' tcs].
  - cbn [map join with_rules].
    rewrite <- (app_nil_r (extractPageText tc)).
    rewrite (paragraphs_page tc [] Htc). apply app_nil_r.
  - specialize (IH H). cbn [map join with_rules] in IH |- *.
    rewrite (paragraphs_page tc _ Htc), paragraphs_separator.
    now rewrite IH.
Qed.

Lemma forallb_map_comp {A B} (f : B -> bool) (g : A -> B) l :
  forallb f (map g l) = forallb (fun x => f (g x)) l.
Proof.
  induction l as [|x l IH]; [reflexivity|]. simpl. now rewrite IH.
Qed.

(** X10. When no item holds a newline, the paragraphs that
    [formatAsMarkdown] sees in the text of a page are the lines of the
    page (cut where the y coordinate, in double precision, moves by more
    than 5), and in the text of a document the lines of its pages with
    one paragraph "---" between consecutive pages. *)
Theorem lines_become_paragraphs (pdf : PDFDocument) :
  forallb (fun n => single_line_items (getTextContent pdf n))
          (seq 1 (numPages pdf)) = true ->
  paragraphs (fullText_of pdf) =
    with_rules (map (fun n => page_lines (getTextContent pdf n))
                    (seq 1 (numPages pdf))) /\
  forall n, In n (seq 1 (numPages pdf)) ->
    paragraphs (extractPageText (getTextContent pdf n)) =
    page_lines (getTextContent pdf n).
Proof.
  intros H. split.
  - unfold fullText_of.
    rewrite (page_loop_join pdf (numPages pdf) 1 []) by lia.
    cbn [app].
    rewrite <- (map_map (getTextContent pdf) extractPageText),
      <- (map_map (getTextContent pdf) page_lines).
    apply paragraphs_pages. now rewrite forallb_map_comp.
  - intros n Hn. rewrite forallb_forall in H. specialize (H n Hn).
    rewrite <- (app_nil_r (extractPageText _)).
    rewrite (paragraphs_page _ [] H). apply app_nil_r.
Qed.

Lemma lines_become_paragraphs_witness :
  paragraphs
    (fullText_of
       (document [[fragment "Title" 700%float; fragment "one" 650%float;
                   fragment "two" 648%float];
                  [fragment " " 700%float; fragment "end" 600%float]])) =
  [lit "Title"; lit "one two"; lit "---"; lit "end"].
Proof.
  apply (proj1 (lines_become_paragraphs
           (document [[fragment "Title" 700%float; fragment "one" 650%float;
                       fragment "two" 648%float];
                      [fragment " " 700%float; fragment "end" 600%float]])
           eq_refl)).
Defined.

(* ------------------------------------------------------------------ *)
(** ** The ends of the output *)

(** X11. The output of [formatAsMarkdown] is empty or starts and ends
    with something else than whitespace: trimming it changes nothing. *)
Theorem output_is_trimmed (text : jsstring) :
  exists md,
    formatAsMarkdown text = Ok md /\
    trim md = md /\
    (forall c s, md = c :: s -> is_space c = false) /\
    (forall s d, md = s ++ [d] -> is_space d = false).
Proof.
  destruct (formatAsMarkdown_eq text) as (fps & _ & E).
  eexists. split; [exact E|].
  set (x := collapse_blank_lines _). split; [apply trim_idempotent|].
  destruct (trim_shape x) as [-> | [(c & s' & Hc & Hsp) (s'' & d & Hd & Hsd)]].
  - split; [discriminate|]. intros s d H. now destruct s.
  - split.
    + intros c0 s0 H. rewrite H in Hc. now injection Hc as -> _.
    + intros s0 d0 H. rewrite H in Hd.
      apply app_inj_tail in Hd as [_ ->]. exact Hsd.
Qed.

(* ------------------------------------------------------------------ *)
(** ** Texts that step 6 leaves alone *)

Lemma lead_blank_run s : 3 <= lead s -> has_blank_run s.
Proof.
  unfold lead. intros H.
  pose proof (take_drop_while is_LF s) as Hs.
  pose proof (take_while_all is_LF s) as Ha.
  destruct (take_while is_LF s) as [|a [|b [|c l]]]; simpl in H; try lia.
  simpl in Ha. apply andb_true_iff in Ha as [Ea Ha].
  apply andb_true_iff in Ha as [Eb Ha].
  apply andb_true_iff in Ha as [Ec _].
  apply is_LF_eq in Ea, Eb, Ec. subst a b c.
  exists [], (l ++ drop_while is_LF s). symmetry. exact Hs.
Qed.

Lemma no_blank_run_no_match prev s :
  ~ has_blank_run s -> no_match M_blank prev s.
Proof.
  revert prev. induction s as [|c s IH]; intros prev H.
  - split; [reflexivity | exact I].
  - split.
    + rewrite match_at_blank_lines.
      destruct (3 <=? length (take_while is_LF (c :: s))) eqn:E;
        [|reflexivity].
      apply Nat.leb_le in E. elim H. now apply lead_blank_run.
    + apply IH. intros (a & b & Hs). apply H. exists (c :: a), b.
      now rewrite Hs.
Qed.

Lemma filter_all_LF l :
  forallb is_LF l = true -> filter (fun c => negb (is_LF c)) l = [].
Proof.
  induction l as [|c l IH]; [reflexivity|]. simpl. intros H.
  apply andb_true_iff in H as [-> H]. now apply IH.
Qed.

(** X12. Step 6 leaves a text as it is exactly when the text holds no
    three consecutive newlines, so applying it twice is the same as
    applying it once; it deletes newlines and nothing else. *)
Theorem collapse_fixed_points :
  (forall s, collapse_blank_lines s = s <-> ~ has_blank_run s) /\
  (forall s,
      collapse_blank_lines (collapse_blank_lines s)
      = collapse_blank_lines s) /\
  (forall s,
      filter (fun c => negb (is_LF c)) (collapse_blank_lines s)
      = filter (fun c => negb (is_LF c)) s) /\
  (forall s, length (collapse_blank_lines s) <= length s).
Proof.
  assert (Hfix : forall s, ~ has_blank_run s -> collapse_blank_lines s = s).
  { intros s H. unfold collapse_blank_lines, replace.
    fold M_blank repl_blank.
    apply scan_no_match; [exact M_blank_sound|].
    now apply no_blank_run_no_match. }
  split; [|split; [|split]].
  - intros s. split; [|apply Hfix].
    intros E. rewrite <- E. apply (collapse_invariant None s).
  - intros s. apply Hfix. apply (collapse_invariant None s).
  - intros s. unfold collapse_blank_lines, replace.
    fold M_blank repl_blank.
    apply scan_filter; [exact M_blank_sound|].
    intros prev t matched caps E. rewrite match_at_blank_lines in E.
    destruct (3 <=? length (take_while is_LF t)); [|discriminate].
    injection E as <- _. rewrite repl_blank_eq.
    now rewrite (filter_all_LF _ (take_while_all is_LF t)).
  - intros s. unfold collapse_blank_lines, replace.
    fold M_blank repl_blank.
    apply (scan_ind M_blank repl_blank M_blank_sound
             (fun _ s out => length out <= length s)).
    + intros _. reflexivity.
    + intros prev c t _ IH. simpl. lia.
    + intros prev matched caps rest E _ IH.
      rewrite match_at_blank_lines in E.
      destruct (3 <=? length (take_while is_LF (matched ++ rest))) eqn:E3;
        [|discriminate].
      apply Nat.leb_le in E3. injection E as Hm _. rewrite Hm in E3.
      rewrite repl_blank_eq, !length_app. simpl. lia.
Qed.

(* ------------------------------------------------------------------ *)
(** ** A title and its body *)

Lemma matches_list_glyph_head c l :
  matches false re_list_glyph (c :: l) = is_list_glyph c.
Proof.
  destruct (matches false re_list_glyph (c :: l)) eqn:E;
    destruct (is_list_glyph c) eqn:Eg; try reflexivity.
  - assert (H : matches false re_list_glyph (c :: l) = false).
    { apply matches_list_glyph. intros g rest Heq Hin.
      injection Heq as <- <-. apply is_list_glyph_In in Hin. congruence. }
    congruence.
  - exfalso. apply (proj1 (matches_list_glyph (c :: l)) E c l eq_refl).
    now apply is_list_glyph_In.
Qed.

Lemma matches_numbered_prefix_head c l :
  is_digit c = false -> matches false re_numbered_prefix (c :: l) = false.
Proof.
  intros Hc. destruct (matches false re_numbered_prefix (c :: l)) eqn:E;
    [|reflexivity].
  apply matches_numbered_prefix in E as (d & D & rest & Hd & Heq).
  injection Heq as <- _. simpl in Hd. rewrite Hc in Hd. discriminate.
Qed.

Lemma format_title a b :
  plain_line a = true ->
  format_paragraph a 0 [a; b] =
  Ok (if title_like a b then lit "## " ++ a else a).
Proof.
  intros Ha. unfold format_paragraph, title_like.
  rewrite (trim_plain a Ha).
  destruct (plain_line_inv a Ha) as (c & l & -> & _ & _ & Hd & _ & _).
  rewrite (matches_numbered_prefix_head c l Hd), matches_list_glyph_head.
  cbn [negb andb]. rewrite andb_true_r.
  change (Z.of_nat 0 <? Z.of_nat (length [c :: l; b]) - 1)%Z with true.
  rewrite andb_true_r.
  destruct ((5 <? length (c :: l)) && (length (c :: l) <? 60)
            && negb (is_list_glyph c)); [|reflexivity].
  cbn [andb Nat.add nth_error length_of bind].
  now destruct (length (c :: l) <? length b).
Qed.

(** X13. A page made of two lines of plain text, the lines being cut
    where the y coordinate, in double precision, moves by more than 5,
    is converted to the two lines separated by a blank line, the first
    one as a heading exactly when it has more than 5 and fewer than 60
    code units, does not start with a hyphen or an asterisk, and is
    shorter than the second one. *)
Theorem title_then_body (pdf : PDFDocument) (a b : jsstring) :
  numPages pdf = 1 ->
  single_line_items (getTextContent pdf 1) = true ->
  page_lines (getTextContent pdf 1) = [a; b] ->
  plain_line a = true -> plain_line b = true ->
  extractTextFromPDF pdf =
    Ok ((if title_like a b then lit "## " ++ a else a)
        ++ paragraph_mark ++ b).
Proof.
  intros Hn Hitems Hlines Ha Hb.
  assert (Hp : paragraphs (fullText_of pdf) = [a; b]).
  { unfold fullText_of.
    rewrite (page_loop_join pdf (numPages pdf) 1 []) by lia.
    rewrite Hn. cbn [seq map app].
    change [extractPageText (getTextContent pdf 1)]
      with (map extractPageText [getTextContent pdf 1]).
    rewrite paragraphs_pages; [exact Hlines|].
    cbn [forallb]. now rewrite Hitems. }
  unfold extractTextFromPDF, formatAsMarkdown, array_map.
  rewrite Hp. cbn [map_from]. rewrite (format_title a b Ha).
  cbn [bind]. rewrite format_last_paragraph, (trim_plain b Hb).
  cbn [bind join]. f_equal.
  destruct (plain_line_inv a Ha) as (c & l & -> & Hs & Hbu & Hd & Hany & _).
  destruct (title_like (c :: l) b).
  - apply (plain_lines_unchanged (N_of_ascii "#")
             (lit "# " ++ c :: l) b); try reflexivity; [|exact Hb].
    cbn [lit app forallb]. exact Hany.
  - now apply plain_lines_unchanged.
Qed.

Lemma title_then_body_witness :
  extractTextFromPDF
    (document [[fragment "Release" 720%float; fragment "notes" 718%float;
                fragment "Nothing is sent to a server." 690%float]]) =
  Ok (lit "## Release notes" ++ paragraph_mark ++
      lit "Nothing is sent to a server.").
Proof.
  apply (title_then_body
           (document [[fragment "Release" 720%float; fragment "notes" 718%float;
                       fragment "Nothing is sent to a server." 690%float]])
           (lit "Release notes") (lit "Nothing is sent to a server.")).
  - reflexivity.
  - reflexivity.
  - reflexivity.
  - reflexivity.
  - reflexivity.
Defined.

(* ------------------------------------------------------------------ *)
(** ** Trimming around visible text *)











(* ------------------------------------------------------------------ *)
(** ** Line starts *)








(* ------------------------------------------------------------------ *)
(** ** Paragraphs of a text made of parts *)











(* ------------------------------------------------------------------ *)
(** ** List items and the text that follows them *)





Section ItemContext.

Variable head : jsstring -> option (jsstring * jsstring).
Variable M : matcher.
Variable caps : jsstring -> jsstring -> list jsstring.
Variable repl : list jsstring -> jsstring.

Hypothesis M_spec : forall prev s,
  M prev s =
    if at_bol true prev then
      option_map (fun hwc => match hwc with
                             | (h, w, cap) => (h ++ w ++ cap, caps h cap)
                             end)
                 (item_match head s)
    else None.

Hypothesis head_split : forall s h s1,
  head s = Some (h, s1) ->
  s = h ++ s1 /\ h <> [] /\ forallb any_char h = true.

Hypothesis head_local : forall s h s1 x,
  head s = Some (h, s1) -> head (h ++ x) = Some (h, x).

Hypothesis head_none : forall t rest,
  t <> [] -> head t = None ->
  ends_line t = true \/ line_end rest -> head (t ++ rest) = None.

Hypothesis repl_tail : forall s h s1 cap,
  head s = Some (h, s1) -> exists r, repl (caps h cap) = r ++ cap.

Hypothesis repl_head : forall s h s1 cap,
  head s = Some (h, s1) ->
  exists d r, repl (caps h cap) = d :: r /\ is_space d = false.















End ItemContext.

(* ------------------------------------------------------------------ *)
(** ** Markers left open at the end of a text *)

Section Closed.

Variable head : jsstring -> option (jsstring * jsstring).

Hypothesis head_split : forall s h s1,
  head s = Some (h, s1) ->
  s = h ++ s1 /\ h <> [] /\ forallb any_char h = true.

Hypothesis head_local : forall s h s1 x,
  head s = Some (h, s1) -> head (h ++ x) = Some (h, x).

Hypothesis head_visible : forall s h s1,
  head s = Some (h, s1) -> forallb (fun c => negb (is_space c)) h = true.




End Closed.










(* ------------------------------------------------------------------ *)
(** ** Steps 4 and 5 on a text made of parts *)

















(* ------------------------------------------------------------------ *)
(** ** Step 6 on a text made of parts *)













(* ------------------------------------------------------------------ *)
(** ** The re-joined text of a text made of parts *)














(* ------------------------------------------------------------------ *)
(** ** Newlines at the start and the end of the text *)










(* ------------------------------------------------------------------ *)
(** ** Runs of newlines in the input *)




(* ------------------------------------------------------------------ *)
(** ** The re-joined text around a line of the input *)



























(* ------------------------------------------------------------------ *)
(** ** Bullet lines in the output *)




(* ------------------------------------------------------------------ *)
(** ** The file name kept, shown and given to the download *)

Lemma strict_eq_true a b : strict_eq a b = true <-> a = b.
Proof.
  unfold strict_eq. destruct (list_eq_dec N.eq_dec a b); split;
    congruence.
Qed.

Lemma strict_eq_false a b : strict_eq a b = false <-> a <> b.
Proof.
  unfold strict_eq. destruct (list_eq_dec N.eq_dec a b); split;
    congruence.
Qed.

Lemma handleFile_wrong_type fmt file loaded st :
  file_type file <> ACCEPTED_FILE_TYPE ->
  handleFile fmt file loaded st
  = showError (lit "Invalid file type. Please select a PDF file.") st.
Proof.
  intros H. unfold handleFile.
  now rewrite (proj2 (strict_eq_false _ _) H).
Qed.

Lemma handleFile_too_large fmt file loaded st :
  file_type file = ACCEPTED_FILE_TYPE ->
  (MAX_FILE_SIZE < file_size file)%N ->
  handleFile fmt file loaded st
  = showError (lit "File size exceeds 50MB. Your file is "
               ++ fmt (file_size file) ++ lit ".") st.
Proof.
  intros Ht Hs. unfold handleFile.
  rewrite (proj2 (strict_eq_true _ _) Ht). cbn [negb].
  now rewrite (proj2 (N.ltb_lt _ _) Hs).
Qed.

Lemma handleFile_accepted fmt file loaded st :
  file_type file = ACCEPTED_FILE_TYPE ->
  (file_size file <= MAX_FILE_SIZE)%N ->
  handleFile fmt file loaded st
  = let st1 := showLoading
                 (store_name (replace_string (lit ".pdf") [] (file_name file))
                    (hideError st)) in
    match converted loaded with
    | inl markdown => showResults markdown st1
    | inr err_name => hideLoading (showError (errorMessage err_name) st1)
    end.
Proof.
  intros Ht Hs. unfold handleFile.
  rewrite (proj2 (strict_eq_true _ _) Ht). cbn [negb].
  now rewrite (proj2 (N.ltb_ge _ _) Hs).
Qed.

Lemma handleFile_name fmt file loaded st :
  file_type file = ACCEPTED_FILE_TYPE ->
  (file_size file <= MAX_FILE_SIZE)%N ->
  currentFileName (handleFile fmt file loaded st)
  = replace_string (lit ".pdf") [] (file_name file).
Proof.
  intros Ht Hs. rewrite (handleFile_accepted fmt file loaded st Ht Hs).
  cbv zeta. destruct (converted loaded); reflexivity.
Qed.

(** X6. [handleFile] turns a file away, with a message and without a
    change of the name it keeps, when the type of the file is not
    application/pdf or when its size is above 50 MB; otherwise, whether
    the conversion succeeds or not, the name kept is the name of the file
    with the first occurrence of ".pdf" taken out, wherever it stands and
    whatever follows it, and the whole name when ".pdf" does not occur
    in it. *)
Theorem stored_name_drops_first_pdf (formatFileSize : N -> jsstring)
    (file : File) (loaded : Loaded) (st : App) :
  (file_type file <> ACCEPTED_FILE_TYPE ->
   handleFile formatFileSize file loaded st
   = showError (lit "Invalid file type. Please select a PDF file.") st /\
   currentFileName (handleFile formatFileSize file loaded st)
   = currentFileName st) /\
  (file_type file = ACCEPTED_FILE_TYPE ->
   (MAX_FILE_SIZE < file_size file)%N ->
   handleFile formatFileSize file loaded st
   = showError (lit "File size exceeds 50MB. Your file is "
                ++ formatFileSize (file_size file) ++ lit ".") st /\
   currentFileName (handleFile formatFileSize file loaded st)
   = currentFileName st) /\
  (file_type file = ACCEPTED_FILE_TYPE ->
   (file_size file <= MAX_FILE_SIZE)%N ->
   currentFileName (handleFile formatFileSize file loaded st)
   = replace_string (lit ".pdf") [] (file_name file) /\
   (forall a b,
       file_name file = a ++ lit ".pdf" ++ b ->
       occurrences (lit ".pdf") a = 0 ->
       currentFileName (handleFile formatFileSize file loaded st) = a ++ b) /\
   (occurrences (lit ".pdf") (file_name file) = 0 ->
    currentFileName (handleFile formatFileSize file loaded st)
    = file_name file)).
Proof.
  split; [|split].
  - intros H. now rewrite handleFile_wrong_type.
  - intros Ht Hs. now rewrite handleFile_too_large.
  - intros Ht Hs. rewrite (handleFile_name _ _ _ _ Ht Hs).
    split; [reflexivity|]. split.
    + intros a b -> Ha. now rewrite replace_string_first_pdf.
    + intros H. now apply replace_string_absent.
Qed.

Lemma stored_name_drops_first_pdf_witness :
  let fmt := fun _ : N => lit "60 MB" in
  let st := {| currentFileName := lit "report";
               error_textContent := [];
               error_show := false;
               uploadSection_display := lit "none";
               loading_show := false;
               results_show := true;
               fileName_textContent := lit "report.md";
               markdownEditor_value := lit "# Report" |} in
  let doc := Document (document [chapter_page]) in
  currentFileName
    (handleFile fmt {| file_name := lit "notes.pdf";
                       file_type := lit "text/plain";
                       file_size := 10 |} doc st) = lit "report" /\
  currentFileName
    (handleFile fmt {| file_name := lit "big.pdf";
                       file_type := lit "application/pdf";
                       file_size := 60 * 1024 * 1024 |} doc st)
  = lit "report" /\
  currentFileName
    (handleFile fmt {| file_name := lit "my.pdf.notes.pdf";
                       file_type := lit "application/pdf";
                       file_size := 10 |} doc st) = lit "my.notes.pdf" /\
  currentFileName
    (handleFile fmt {| file_name := lit "scan";
                       file_type := lit "application/pdf";
                       file_size := 10 |} (Failure (lit "PasswordException"))
       st) = lit "scan".
Proof.
  intros fmt st doc. split; [|split; [|split]].
  - apply (proj1 (stored_name_drops_first_pdf fmt
             {| file_name := lit "notes.pdf"; file_type := lit "text/plain";
                file_size := 10 |} doc st)).
    discriminate.
  - apply (proj1 (proj2 (stored_name_drops_first_pdf fmt
             {| file_name := lit "big.pdf";
                file_type := lit "application/pdf";
                file_size := 60 * 1024 * 1024 |} doc st)));
      reflexivity.
  - apply (proj1 (proj2 (proj2 (proj2 (stored_name_drops_first_pdf fmt
             {| file_name := lit "my.pdf.notes.pdf";
                file_type := lit "application/pdf";
                file_size := 10 |} doc st)) eq_refl
             ltac:(vm_compute; discriminate)))
             (lit "my") (lit ".notes.pdf")); reflexivity.
  - apply (proj2 (proj2 (proj2 (proj2 (stored_name_drops_first_pdf fmt
             {| file_name := lit "scan";
                file_type := lit "application/pdf";
                file_size := 10 |} (Failure (lit "PasswordException")) st))
             eq_refl ltac:(vm_compute; discriminate)))); reflexivity.
Defined.

(** X7. After [handleFile] has accepted a file named base.pdf, ".pdf" not
    occurring in the base, the download is named base.md, or document.md
    when the base is empty.  When the conversion succeeds the title shown
    is base.md, the editor and the download hold the Markdown, the
    results are shown and neither the loading state nor an error is;
    when it fails the message of the exception is shown, and the editor,
    the download and the title keep what they held.  A file that is
    turned away changes nothing of the download, which is named
    document.md when no name is kept, as after [resetApp]. *)
Theorem download_name_of_pdf (formatFileSize : N -> jsstring)
    (file : File) (loaded : Loaded) (st : App) :
  let st' := handleFile formatFileSize file loaded st in
  (file_type file = ACCEPTED_FILE_TYPE ->
   (file_size file <= MAX_FILE_SIZE)%N ->
   forall base,
     file_name file = base ++ lit ".pdf" ->
     occurrences (lit ".pdf") base = 0 ->
     download_name (handleDownloadClick st')
     = (if truthy base then base else lit "document") ++ lit ".md" /\
     (forall markdown,
         converted loaded = inl markdown ->
         fileName_textContent st' = base ++ lit ".md" /\
         markdownEditor_value st' = markdown /\
         download_content (handleDownloadClick st') = markdown /\
         results_show st' = true /\
         loading_show st' = false /\
         error_show st' = false) /\
     (forall err_name,
         converted loaded = inr err_name ->
         error_show st' = true /\
         error_textContent st' = errorMessage err_name /\
         loading_show st' = false /\
         markdownEditor_value st' = markdownEditor_value st /\
         download_content (handleDownloadClick st')
         = markdownEditor_value st /\
         fileName_textContent st' = fileName_textContent st /\
         results_show st' = results_show st)) /\
  (file_type file <> ACCEPTED_FILE_TYPE \/
   (MAX_FILE_SIZE < file_size file)%N ->
   handleDownloadClick st' = handleDownloadClick st /\
   error_show st' = true /\
   (currentFileName st = [] ->
    download_name (handleDownloadClick st') = lit "document.md")) /\
  download_name (handleDownloadClick (resetApp st)) = lit "document.md" /\
  download_content (handleDownloadClick (resetApp st)) = [].
Proof.
  cbv zeta. split; [|split; [|split; reflexivity]].
  - intros Ht Hs base Hname Hbase.
    assert (E : replace_string (lit ".pdf") [] (file_name file) = base).
    { rewrite Hname, <- (app_nil_r (lit ".pdf")).
      rewrite replace_string_first_pdf by exact Hbase. apply app_nil_r. }
    rewrite (handleFile_accepted _ _ _ _ Ht Hs), E. cbv zeta.
    split; [destruct (converted loaded); reflexivity|]. split.
    + intros markdown ->. repeat split.
    + intros err_name ->. repeat split.
  - intros H.
    assert (E : exists message,
               handleFile formatFileSize file loaded st
               = showError message st).
    { destruct (list_eq_dec N.eq_dec (file_type file) ACCEPTED_FILE_TYPE)
        as [Ht | Ht].
      - destruct H as [H | H]; [congruence|].
        eexists. now apply handleFile_too_large.
      - eexists. now apply handleFile_wrong_type. }
    destruct E as [message ->]. split; [reflexivity|].
    split; [reflexivity|]. intros Hn.
    unfold handleDownloadClick, showError. cbn. now rewrite Hn.
Qed.

Lemma download_name_of_pdf_witness :
  let fmt := fun _ : N => lit "60 MB" in
  let st := {| currentFileName := [];
               error_textContent := [];
               error_show := false;
               uploadSection_display := lit "block";
               loading_show := false;
               results_show := false;
               fileName_textContent := [];
               markdownEditor_value := [] |} in
  let report := {| file_name := lit "report.pdf";
                   file_type := lit "application/pdf";
                   file_size := 2048 |} in
  let notes := {| file_name := lit "notes.pdf";
                  file_type := lit "text/plain";
                  file_size := 2048 |} in
  let doc := Document (document [chapter_page]) in
  download_name (handleDownloadClick (handleFile fmt report doc st))
  = lit "report.md" /\
  fileName_textContent (handleFile fmt report doc st) = lit "report.md" /\
  download_content (handleDownloadClick (handleFile fmt report doc st))
  = lit "## Chapter One" ++ [LF; LF]
    ++ lit "This is a longer line of body text that follows the title." /\
  download_name (handleDownloadClick (handleFile fmt notes doc st))
  = lit "document.md".
Proof.
  intros fmt st report notes doc.
  pose proof (proj1 (download_name_of_pdf fmt report doc st) eq_refl
                ltac:(vm_compute; discriminate) (lit "report") eq_refl
                eq_refl) as (Hn & Hok & _).
  destruct (Hok (lit "## Chapter One" ++ [LF; LF]
      ++ lit "This is a longer line of body text that follows the title.")
             ltac:(vm_compute; reflexivity)) as (Ht & _ & Hc & _).
  split; [exact Hn|]. split; [exact Ht|]. split; [exact Hc|].
  apply (proj1 (proj2 (download_name_of_pdf fmt notes doc st))).
  - left. discriminate.
  - reflexivity.
Defined.
